(** * DeepgramService: the transcription session of src/utils/deepgram.js

    A shallow embedding of the class [DeepgramService]: the speaker-label
    allocator, the classification of streaming messages, the reconnection
    policy of the socket handlers, [close()], and the batch path
    [transcribeRecording] with its speaker segmentation.

    Conventions.
    - A JavaScript object used as a dictionary ([speakerMap], [listeners])
      is a [gmap]; [Object.keys(o).length] is [size].
    - A property that may be missing (or [null]) is an [option]; [?.], [??]
      and [||] are written out with [≫=] and [default] at each use.
    - A method that mutates [this] takes the session and returns the new
      one; what it does to the outside world (a listener notified, a timer
      armed, a frame sent) is returned as a list of [Effect]s.
    - What the environment hands to the code (the value of [JSON.parse],
      the fetched response, [Date.now()], a fresh socket) is an input.
    - The documents have the shape the service documents: speaker ids are
      integers, words and transcripts are strings. *)

From Stdlib Require QArith_base.
From stdpp Require Import gmap strings list fin_maps pretty.

Open Scope string_scope.
Open Scope list_scope.
Open Scope nat_scope.

(** ** JSON documents received from the service *)

(** A JSON number that the code passes on without computing with it. *)
Definition number : Type := QArith_base.Q.

(** One entry of [alternative.words]. *)
Record Word := {
  word : string;
  punctuated_word : option string;
  speaker : option Z
}.

Record Alternative := {
  transcript : option string;
  confidence : option number;
  words : option (list Word)
}.

Record Channel := {
  alternatives : option (list Alternative)
}.

(** A message of the streaming socket, after [JSON.parse]. *)
Record StreamMessage := {
  type : option string;
  channel : option Channel;
  is_final : option bool
}.

(** The body of a batch response, after [res.json()]. *)
Record Results := {
  channels : option (list Channel)
}.

Record BatchData := {
  results : option Results
}.

(** The fulfilled [fetch] of [transcribeRecording]: [json] is [None] when
    the body is not JSON and [res.json()] rejects. *)
Record Response := {
  ok : bool;
  status : nat;
  text : string;
  json : option BatchData
}.

(** ** Events handed to listeners *)

Module TranscriptEvent.

Record t := {
  text : string;
  speaker : string;
  speakerId : Z;
  confidence : option number;
  timestamp : Z;
  is_final : bool
}.

End TranscriptEvent.

Inductive Payload :=
| Transcript (e : TranscriptEvent.t)
| SocketFailure (error : string).

(** A registered callback, known by its identity. *)
Definition Callback : Type := nat.

Inductive Effect :=
| Emit (event : string) (data : Payload)
| SetTimeout (delay : nat)
| WebSocketClose (handle : nat) (code : nat) (reason : string)
| WebSocketSend (handle : nat) (audioBuffer : list nat)
| Warn (message : string).

(** ** The session *)

(** The keys of [speakerMap] are the values passed to [getSpeakerLabel]:
    a number, or [null] ([None]), the initial [currentSpeaker] of the batch
    loop. *)
Record Session := {
  apiKey : string;
  socket : option nat;
  listeners : gmap string (list Callback);
  isConnected : bool;
  reconnectAttempts : nat;
  maxReconnectAttempts : nat;
  speakerMap : gmap (option Z) string
}.

Definition constructor (key : string) : Session :=
  {| apiKey := key;
     socket := None;
     listeners := ∅;
     isConnected := false;
     reconnectAttempts := 0;
     maxReconnectAttempts := 3;
     speakerMap := ∅ |}.

Definition set_socket (v : option nat) (s : Session) : Session :=
  {| apiKey := apiKey s; socket := v; listeners := listeners s;
     isConnected := isConnected s; reconnectAttempts := reconnectAttempts s;
     maxReconnectAttempts := maxReconnectAttempts s; speakerMap := speakerMap s |}.

Definition set_listeners (v : gmap string (list Callback)) (s : Session) : Session :=
  {| apiKey := apiKey s; socket := socket s; listeners := v;
     isConnected := isConnected s; reconnectAttempts := reconnectAttempts s;
     maxReconnectAttempts := maxReconnectAttempts s; speakerMap := speakerMap s |}.

Definition set_isConnected (v : bool) (s : Session) : Session :=
  {| apiKey := apiKey s; socket := socket s; listeners := listeners s;
     isConnected := v; reconnectAttempts := reconnectAttempts s;
     maxReconnectAttempts := maxReconnectAttempts s; speakerMap := speakerMap s |}.

Definition set_reconnectAttempts (v : nat) (s : Session) : Session :=
  {| apiKey := apiKey s; socket := socket s; listeners := listeners s;
     isConnected := isConnected s; reconnectAttempts := v;
     maxReconnectAttempts := maxReconnectAttempts s; speakerMap := speakerMap s |}.

Definition set_speakerMap (v : gmap (option Z) string) (s : Session) : Session :=
  {| apiKey := apiKey s; socket := socket s; listeners := listeners s;
     isConnected := isConnected s; reconnectAttempts := reconnectAttempts s;
     maxReconnectAttempts := maxReconnectAttempts s; speakerMap := v |}.

(** ** JavaScript truthiness of the values the code tests *)

(** A string is truthy when it is not empty. *)
Definition nonempty (x : string) : bool := negb (String.eqb x "").

(** [v] when [v] is a truthy string, as in [if (v)] and [v || other]. *)
Definition truthy (v : option string) : option string :=
  match v with
  | Some x => if nonempty x then Some x else None
  | None => None
  end.

Definition newline : string := String (Ascii.ascii_of_nat 10) "".

(** ** getSpeakerLabel *)

Definition labels : list string :=
  ["A"; "B"; "C"; "D"; "E"; "F"; "G"; "H"; "I"; "J"].

(** [`Speaker ${labels[index] || index}`] *)
Definition label_of_index (index : nat) : string :=
  "Speaker " +:+ default (pretty index) (labels !! index).

(** The value returned is the table entry after the conditional
    assignment: the entry found when it is truthy, the one just stored
    otherwise. *)
Definition getSpeakerLabel (speakerId : option Z) (s : Session) : string * Session :=
  match truthy (speakerMap s !! speakerId) with
  | Some label => (label, s)
  | None =>
      let index := size (speakerMap s) in
      let label := label_of_index index in
      (label, set_speakerMap (<[speakerId := label]> (speakerMap s)) s)
  end.

(** ** Event emitter *)

Definition on (event : string) (callback : Callback) (s : Session) : Session :=
  let registered := default [] (listeners s !! event) in
  set_listeners (<[event := (registered ++ [callback])%list]> (listeners s)) s.

(** [callbacks.forEach(callback => callback(data))]: the calls made, in
    order, and whether an exception leaves the loop. [throws] tells what a
    callback does when called with some data: it returns, or it throws.
    Nothing catches here: the first callback that throws ends the loop and
    the callbacks after it are not called. Callbacks are taken not to call
    back into the session. *)
Fixpoint forEach (throws : Callback → Payload → bool) (data : Payload)
    (callbacks : list Callback) : list (Callback * Payload) * bool :=
  match callbacks with
  | [] => ([], false)
  | callback :: rest =>
      if throws callback data then ([(callback, data)], true)
      else
        let '(calls, threw) := forEach throws data rest in
        ((callback, data) :: calls, threw)
  end.

(** The calls [emit] makes and whether it throws. *)
Definition emit (throws : Callback → Payload → bool) (event : string) (data : Payload)
    (s : Session) : list (Callback * Payload) * bool :=
  match listeners s !! event with
  | Some callbacks => forEach throws data callbacks
  | None => ([], false)
  end.

(** ** Streaming path *)

Section Streaming.

(** [JSON.parse] and the reading of the fields [handleMessage] uses.
    [None] when parsing throws, and when the value is not an object: on
    [null] the first access throws into the handler's own [catch], on a
    number, a string or an array every access finds nothing. *)
Variable JSON_parse : string → option StreamMessage.

(** [now] is the value of [Date.now()]. Logging is left out. *)
Definition handleMessage (data : string) (now : Z) (s : Session) : Session * list Effect :=
  match JSON_parse data with
  | None => (s, [])
  | Some parsed =>
      if bool_decide (type parsed = Some "Metadata") then (s, [])
      else
        match (channel parsed ≫= alternatives) ≫= head with
        | Some alternative =>
            match truthy (transcript alternative), is_final parsed with
            | Some transcript_text, Some true =>
                let words := default [] (words alternative) in
                let speakerId := default 0%Z (head words ≫= speaker) in
                let '(speakerLabel, s') := getSpeakerLabel (Some speakerId) s in
                (s', [Emit "transcript" (Transcript
                       {| TranscriptEvent.text := transcript_text;
                          TranscriptEvent.speaker := speakerLabel;
                          TranscriptEvent.speakerId := speakerId;
                          TranscriptEvent.confidence := confidence alternative;
                          TranscriptEvent.timestamp := now;
                          TranscriptEvent.is_final := true |})])
            | _, _ => (s, [])
            end
        | None => (s, [])
        end
  end.

(** [connect()]: [handle] is the socket [new WebSocket] returns. *)
Definition connect (handle : nat) (s : Session) : Session :=
  set_socket (Some handle) s.

Definition onopen (s : Session) : Session :=
  set_reconnectAttempts 0 (set_isConnected true s).

Definition onerror (error : string) (s : Session) : Session * list Effect :=
  (s, [Emit "error" (SocketFailure error)]).

(** The timer armed here runs [connect()] when it fires. *)
Definition attemptReconnect (s : Session) : Session * list Effect :=
  let s' := set_reconnectAttempts (reconnectAttempts s + 1) s in
  (s', [SetTimeout (2000 * reconnectAttempts s')]).

Definition onclose (code : nat) (s : Session) : Session * list Effect :=
  let s' := set_isConnected false s in
  if negb (code =? 1000)%nat && (reconnectAttempts s' <? maxReconnectAttempts s')%nat
  then attemptReconnect s'
  else (s', []).

(** [open] tells whether [this.socket.readyState === WebSocket.OPEN]. *)
Definition sendAudio (audioBuffer : list nat) (open : bool) (s : Session) : list Effect :=
  match socket s with
  | Some handle =>
      if open then [WebSocketSend handle audioBuffer]
      else [Warn "Cannot send audio: WebSocket not connected"]
  | None => [Warn "Cannot send audio: WebSocket not connected"]
  end.

Definition close (s : Session) : Session * list Effect :=
  let '(s1, effects) :=
    match socket s with
    | Some handle => (set_socket None s, [WebSocketClose handle 1000 "Session ended"])
    | None => (s, [])
    end in
  (set_speakerMap ∅ (set_isConnected false s1), effects).

End Streaming.

(** ** Batch path *)

(** The locals of the segmentation loop of [transcribeRecording]. *)
Record Segmentation := {
  lines : list string;
  currentSpeaker : option Z;
  currentWords : list string
}.

(** [w.punctuated_word || w.word] *)
Definition word_text (w : Word) : string :=
  default (word w) (truthy (punctuated_word w)).

(** The block that occurs twice in the source, inside the loop and after
    it: when [currentWords.length] is not zero, resolve the label of
    [currentSpeaker] and push the line. *)
Definition push_line (st : Segmentation) (s : Session) : list string * Session :=
  match currentWords st with
  | [] => (lines st, s)
  | _ :: _ =>
      let '(label, s') := getSpeakerLabel (currentSpeaker st) s in
      ((lines st ++ [label +:+ ": " +:+ String.concat " " (currentWords st)])%list, s')
  end.

(** One iteration of [for (const w of words)]. *)
Definition loop_body (acc : Segmentation * Session) (w : Word) : Segmentation * Session :=
  let '(st, s) := acc in
  let speaker := default 0%Z (speaker w) in
  let '(st1, s1) :=
    if bool_decide (Some speaker ≠ currentSpeaker st) then
      let '(lines', s') := push_line st s in
      ({| lines := lines'; currentSpeaker := Some speaker; currentWords := [] |}, s')
    else (st, s) in
  ({| lines := lines st1;
      currentSpeaker := currentSpeaker st1;
      currentWords := (currentWords st1 ++ [word_text w])%list |}, s1).

(** What [transcribeRecording] throws. *)
Inductive Failure :=
| Error (message : string)
| JsonRejected.

(** [res] is the fulfilled [fetch]; building the request is left out. *)
Definition transcribeRecording (res : Response) (s : Session) : (Failure + string) * Session :=
  if negb (ok res) then
    (inl (Error ("Deepgram: " +:+ pretty (status res) +:+ " " +:+ text res)), s)
  else
    match json res with
    | None => (inl JsonRejected, s)
    | Some data =>
        let channel := (results data ≫= channels) ≫= head in
        let alternatives := channel ≫= alternatives in
        match alternatives with
        | None | Some [] => (inr "", s)
        | Some (alternative :: _) =>
            match default [] (words alternative) with
            | [] => (inr (default "" (transcript alternative)), s)
            | (_ :: _) as words =>
                let s0 := set_speakerMap ∅ s in
                let '(st, s1) :=
                  foldl loop_body
                    ({| lines := []; currentSpeaker := None; currentWords := [] |}, s0)
                    words in
                let '(lines', s2) := push_line st s1 in
                (inr (String.concat newline lines'), s2)
            end
        end
    end.

(** ** The session as a machine *)

Inductive Event :=
| CallConnect (handle : nat)
| CallClose
| CallOn (event : string) (callback : Callback)
| CallSendAudio (audioBuffer : list nat) (open : bool)
| CallTranscribeRecording (res : Response)
| SocketOpen
| SocketMessage (data : string) (now : Z)
| SocketError (error : string)
| SocketClose (code : nat)
| TimerFires (handle : nat).

Section Machine.

Variable JSON_parse : string → option StreamMessage.

Definition step (s : Session) (e : Event) : Session * list Effect :=
  match e with
  | CallConnect handle => (connect handle s, [])
  | CallClose => close s
  | CallOn event callback => (on event callback s, [])
  | CallSendAudio audioBuffer open => (s, sendAudio audioBuffer open s)
  | CallTranscribeRecording res => ((transcribeRecording res s).2, [])
  | SocketOpen => (onopen s, [])
  | SocketMessage data now => handleMessage JSON_parse data now s
  | SocketError error => onerror error s
  | SocketClose code => onclose code s
  | TimerFires handle => (connect handle s, [])
  end.

Definition run (s : Session) (events : list Event) : Session :=
  foldl (λ s e, (step s e).1) s events.

End Machine.

(** ** The specification's reading of speaker segmentation *)

(** The speaker id of a word. *)
Definition speaker_of (w : Word) : Z := default 0%Z (speaker w).

(** Maximal runs of consecutive words with one speaker id. *)
Fixpoint segments (ws : list Word) : list (Z * list Word) :=
  match ws with
  | [] => []
  | w :: rest =>
      match segments rest with
      | (id, group) :: more =>
          if bool_decide (speaker_of w = id)
          then (id, w :: group) :: more
          else (speaker_of w, [w]) :: (id, group) :: more
      | [] => [(speaker_of w, [w])]
      end
  end.

Section FirstSeen.

Context {K : Type} `{EqDecision K}.

Definition see (seen : list K) (x : K) : list K :=
  if decide (x ∈ seen) then seen else (seen ++ [x])%list.

(** The distinct elements of [ids], in the order of their first
    occurrence. *)
Definition first_seen (ids : list K) : list K := foldl see [] ids.

(** Position of the first [x] in [l]; [length l] when there is none. *)
Fixpoint index_of (x : K) (l : list K) : nat :=
  match l with
  | [] => 0
  | y :: l' => if decide (y = x) then 0 else S (index_of x l')
  end.

End FirstSeen.

(** The label of every id of [ids] when labels go to ids in first-seen
    order. *)
Definition first_seen_labels (ids : list Z) : list string :=
  (λ id, label_of_index (index_of id (first_seen ids))) <$> ids.

(** ["{label}: {joined words}"] *)
Definition render (label : string) (texts : list string) : string :=
  label +:+ ": " +:+ String.concat " " texts.

(** What the words of a segment contribute. *)
Definition texts (text_of : Word → string) (group : list Word) : list string :=
  text_of <$> group.

(** The transcript of the specification, for a choice of what a word
    contributes. *)
Definition segmented_transcript (text_of : Word → string) (ws : list Word) : string :=
  let segs := segments ws in
  String.concat newline
    (zip_with render (first_seen_labels segs.*1) (texts text_of <$> segs.*2)).

(** "its punctuated form if present, else its raw form" *)
Definition punctuated_if_present (w : Word) : string :=
  match punctuated_word w with
  | Some punctuated => punctuated
  | None => word w
  end.

(** Its punctuated form if present and not empty, else its raw form. *)
Definition punctuated_if_nonempty (w : Word) : string :=
  match punctuated_word w with
  | Some punctuated => if String.eqb punctuated "" then word w else punctuated
  | None => word w
  end.

(** The labels handed out when [getSpeakerLabel] is called on each id in
    turn. *)
Fixpoint label_all (ids : list (option Z)) (s : Session) : list string * Session :=
  match ids with
  | [] => ([], s)
  | id :: rest =>
      let '(label, s1) := getSpeakerLabel id s in
      let '(more, s2) := label_all rest s1 in
      (label :: more, s2)
  end.

(** [needle] occurs in [hay]. *)
Definition includes (hay needle : string) : Prop :=
  ∃ before after, hay = before +:+ needle +:+ after.

(** The first alternative of the first channel, when there is one. *)
Definition first_alternative (data : BatchData) : option Alternative :=
  ((((results data ≫= channels) ≫= head) ≫= alternatives) ≫= head).

(** [m] is the table reached when the ids of [seen] were presented for
    the first time in that order. *)
Definition allocated (seen : list (option Z)) (m : gmap (option Z) string) : Prop :=
  NoDup seen ∧
  ∀ id, m !! id =
        if decide (id ∈ seen) then Some (label_of_index (index_of id seen)) else None.

(** The lines of [segs], each label resolved in turn by the allocator. *)
Fixpoint lines_from (segs : list (Z * list Word)) (s : Session) : list string * Session :=
  match segs with
  | [] => ([], s)
  | (id, group) :: more =>
      let '(label, s1) := getSpeakerLabel (Some id) s in
      let '(rest, s2) := lines_from more s1 in
      (render label (word_text <$> group) :: rest, s2)
  end.

(** ** The conditions of the claims *)

(** The speaker id the streaming path reads: that of the first word, 0
    when there is no first word. *)
Definition first_speaker (alternative : Alternative) : Z :=
  match words alternative with
  | Some (w :: _) => speaker_of w
  | _ => 0%Z
  end.

(** [parsed] is not typed as Metadata, its first alternative is
    [alternative], whose transcript is the non-empty [transcript_text], and
    it is marked final. *)
Definition final_transcript (parsed : StreamMessage) (alternative : Alternative)
    (transcript_text : string) : Prop :=
  type parsed ≠ Some "Metadata" ∧
  (channel parsed ≫= alternatives) ≫= head = Some alternative ∧
  transcript alternative = Some transcript_text ∧
  transcript_text ≠ "" ∧
  is_final parsed = Some true.

(** The event of the claim for such a message. *)
Definition transcript_event (alternative : Alternative) (transcript_text : string)
    (now : Z) (s : Session) : Effect :=
  Emit "transcript" (Transcript
    {| TranscriptEvent.text := transcript_text;
       TranscriptEvent.speaker := (getSpeakerLabel (Some (first_speaker alternative)) s).1;
       TranscriptEvent.speakerId := first_speaker alternative;
       TranscriptEvent.confidence := confidence alternative;
       TranscriptEvent.timestamp := now;
       TranscriptEvent.is_final := true |}).

(** [w] with its speaker field set to the id it is treated as having. *)
Definition speaker_filled (w : Word) : Word :=
  {| word := word w; punctuated_word := punctuated_word w;
     speaker := Some (speaker_of w) |}.

Definition is_open (e : Event) : bool :=
  match e with
  | SocketOpen => true
  | _ => false
  end.

(** A closure with a code other than the normal-closure code. *)
Definition is_abnormal_close (e : Event) : bool :=
  match e with
  | SocketClose code => negb (code =? 1000)
  | _ => false
  end.

Definition abnormal_closes (events : list Event) : nat :=
  length (filter (λ e, is_abnormal_close e = true) events).

(** The word list the segmentation runs on; empty when the call fails or
    returns before it. *)
Definition word_list (res : Response) : list Word :=
  if ok res then default [] ((json res ≫= first_alternative) ≫= words) else [].

(** ** Inputs used in examples *)

Definition said (text : string) (sp : Z) : Word :=
  {| word := text; punctuated_word := None; speaker := Some sp |}.

(** A successful response whose first alternative is [alternative]. *)
Definition response_with (alternative : Alternative) : Response :=
  {| ok := true; status := 200; text := "";
     json := Some {| results := Some {| channels := Some
       [{| alternatives := Some [alternative] |}] |} |} |}.

Definition batch_response (ws : list Word) : Response :=
  response_with {| transcript := Some ""; confidence := None; words := Some ws |}.

(** A successful response with a flat transcript and no words. *)
Definition flat_response : Response :=
  response_with {| transcript := Some "hello world"; confidence := None;
                   words := Some [] |}.

(** A fresh session in which speaker 5 has been given a label. *)
Definition labelled_session : Session :=
  (getSpeakerLabel (Some 5%Z) (constructor "key")).2.

(** A final streaming message with one alternative. *)
Definition final_message (alternative : Alternative) : StreamMessage :=
  {| type := Some "Results";
     channel := Some {| alternatives := Some [alternative] |};
     is_final := Some true |}.

(** The alternative of the specification's example: "hello" said by
    speaker 1 with confidence 0.9. *)
Definition hello : Alternative :=
  {| transcript := Some "hello";
     confidence := Some (QArith_base.Qmake 9 10);
     words := Some [said "hello" 1] |}.

(** "hello" with a first word that has no speaker field. *)
Definition hello_unattributed : Alternative :=
  {| transcript := Some "hello";
     confidence := Some (QArith_base.Qmake 9 10);
     words := Some [{| word := "hello"; punctuated_word := None; speaker := None |};
                    said "there" 2] |}.

(** A parser that answers [parsed] for every payload. *)
Definition parses_to (parsed : StreamMessage) : string → option StreamMessage :=
  λ _, Some parsed.

(** ** Observing the machine *)

Section Trace.

Variable JSON_parse : string → option StreamMessage.

(** The effects of a sequence of events, in order. *)
Fixpoint trace (s : Session) (events : list Event) : list Effect :=
  match events with
  | [] => []
  | e :: rest => (step JSON_parse s e).2 ++ trace (step JSON_parse s e).1 rest
  end.

End Trace.

(** The delays of the timers armed, in order. *)
Definition timers (effects : list Effect) : list nat :=
  omap (λ effect, match effect with SetTimeout delay => Some delay | _ => None end)
       effects.

(** The speaker labels of the transcript events emitted, in order. *)
Definition emitted_labels (effects : list Effect) : list string :=
  omap (λ effect,
          match effect with
          | Emit _ (Transcript e) => Some (TranscriptEvent.speaker e)
          | _ => None
          end)
       effects.

(** The status after [events], from the status [before]: the handlers
    assign [isConnected] in [onopen], [onclose] and [close()] only. *)
Definition connected_after (before : bool) (events : list Event) : bool :=
  foldl (λ status e,
           match e with
           | SocketOpen => true
           | SocketClose _ | CallClose => false
           | _ => status
           end)
        before events.




(** The property names every object inherits from [Object.prototype]. On
    these names [listeners[event]] is not a list of callbacks even when
    nothing was registered, and [on] and [emit] throw; the statements on
    [on] and [emit] leave them out. *)
Definition Object_prototype_names : list string :=
  ["constructor"; "__proto__"; "__defineGetter__"; "__defineSetter__";
   "__lookupGetter__"; "__lookupSetter__"; "hasOwnProperty"; "isPrototypeOf";
   "propertyIsEnumerable"; "toLocaleString"; "toString"; "valueOf"].

Definition plain_name (event : string) : Prop := event ∉ Object_prototype_names.

#[global] Instance plain_name_dec (event : string) : Decision (plain_name event).
Proof. unfold plain_name. apply _. Defined.

(** The events that empty the table: [close()], and a batch call that
    reaches the segmentation. *)
Definition resets_labels (e : Event) : bool :=
  match e with
  | CallClose => true
  | CallTranscribeRecording res => bool_decide (word_list res ≠ [])
  | _ => false
  end.

(** ** The request of the batch path *)

Module Blob.

(** A [Blob]: its content and its MIME type; [size] is the length of the
    content. *)
Record t := {
  bytes : list nat;
  type : string
}.

Definition size (b : t) : nat := length (bytes b).

End Blob.

(** [new Blob(parts, { type })] *)
Definition new_Blob (parts : list Blob.t) (type : string) : Blob.t :=
  {| Blob.bytes := concat (Blob.bytes <$> parts); Blob.type := type |}.

(** The [Content-Type] header of [transcribeRecording]:
    [audioBlob.type || 'audio/webm']. *)
Definition content_type (audioBlob : Blob.t) : string :=
  default "audio/webm" (truthy (Some (Blob.type audioBlob))).

(** ** Side panel: the recorder and its timer *)

(** [mediaRecorder.ondataavailable], on the global [audioChunks]. *)
Definition ondataavailable (audioChunks : list Blob.t) (data : Blob.t) : list Blob.t :=
  if 0 <? Blob.size data then audioChunks ++ [data] else audioChunks.

(** The blob [mediaRecorder.onstop] stores in [recordedBlob]. *)
Definition onstop_blob (audioChunks : list Blob.t) : Blob.t :=
  new_Blob audioChunks "audio/webm".

(** The character of a decimal digit; [digit 0] is ['0']. *)
Definition digit (n : nat) : Ascii.ascii := Ascii.ascii_of_nat (48 + n).

Fixpoint repeat_char (n : nat) (c : Ascii.ascii) : string :=
  match n with
  | 0 => ""
  | S n' => String c (repeat_char n' c)
  end.

(** [s.padStart(targetLength, pad)] for a [pad] of one character. *)
Definition padStart (targetLength : nat) (pad : Ascii.ascii) (s : string) : string :=
  repeat_char (targetLength - String.length s) pad +:+ s.

(** [updateTimer()]: the new [recordingTime.textContent]. [startTime] is
    [None] for [null]; [now] is [Date.now()]. [Math.floor] of a quotient is
    [`div`], and [%] takes the sign of the dividend, as [`rem`] does. *)
Definition updateTimer (startTime : option Z) (now : Z) (textContent : string) : string :=
  match startTime with
  | Some started =>
      if bool_decide (started = 0%Z) then textContent
      else
        let elapsed := ((now - started) `div` 1000)%Z in
        let minutes := (elapsed `div` 60)%Z in
        let seconds := (elapsed `rem` 60)%Z in
        padStart 2 (digit 0) (pretty minutes) +:+ ":"
          +:+ padStart 2 (digit 0) (pretty seconds)
  | None => textContent
  end.

(** The two digits of a number below 100. *)
Definition two_digits (n : nat) : string :=
  String (digit (n `div` 10)) (String (digit (n `mod` 10)) "").

(** ** The bundled build, src/dist/sidepanel/index.js *)

Module Bundle.

(** [transcribeRecording] as bundled: an earlier revision, without
    segmentation, that does not touch the session. *)
Definition transcribeRecording (res : Response) : Failure + string :=
  if negb (ok res) then
    inl (Error ("Deepgram: " +:+ pretty (status res) +:+ " " +:+ text res))
  else
    match json res with
    | None => inl JsonRejected
    | Some data =>
        let channel := (results data ≫= channels) ≫= head in
        let alternatives := channel ≫= alternatives in
        match alternatives with
        | None | Some [] => inr ""
        | Some (alternative :: _) => inr (default "" (transcript alternative))
        end
    end.

(** What [mediaRecorder.onstop] leaves in the transcript element and in
    the status text once the call has settled; [rejection] is the message
    of the error [res.json()] rejects with. *)
Definition onstop_shown (rejection : string) (outcome : Failure + string) :
    string * string :=
  match outcome with
  | inr transcript_text =>
      (default "(No speech detected)" (truthy (Some transcript_text)),
       "Recording stopped")
  | inl (Error message) => ("Error: " +:+ message, "Transcription failed")
  | inl JsonRejected => ("Error: " +:+ rejection, "Transcription failed")
  end.

End Bundle.

(** A parser for two payloads: "hello" is the final message of speaker
    1, "unattributed" the one whose first word has no speaker field;
    nothing else parses. *)
Definition two_payloads (data : string) : option StreamMessage :=
  if String.eqb data "hello" then Some (final_message hello)
  else if String.eqb data "unattributed" then Some (final_message hello_unattributed)
  else None.

(** * Properties *)

(** ** The label allocator *)

Lemma label_of_index_truthy index :
  truthy (Some (label_of_index index)) = Some (label_of_index index).
Proof. reflexivity. Qed.

Section FirstSeenFacts.

Context {K : Type} `{EqDecision K}.
Implicit Types (x y : K) (l seen ids : list K).

Lemma index_of_app x l l' : x ∈ l → index_of x (l ++ l') = index_of x l.
Proof.
  induction l as [|y l IH]; intros Hin.
  - by apply elem_of_nil in Hin.
  - simpl. destruct (decide (y = x)) as [|Hne]; [done|].
    apply elem_of_cons in Hin as [-> |Hin]; [done|]. by rewrite IH.
Qed.

Lemma index_of_fresh x l : x ∉ l → index_of x (l ++ [x]) = length l.
Proof.
  induction l as [|y l IH]; intros Hnin; simpl.
  - by rewrite decide_True.
  - apply not_elem_of_cons in Hnin as [Hne Hnin].
    rewrite decide_False; [|done]. by rewrite IH.
Qed.

Lemma index_of_lookup x l : x ∈ l → l !! index_of x l = Some x.
Proof.
  induction l as [|y l IH]; intros Hin.
  - by apply elem_of_nil in Hin.
  - simpl. destruct (decide (y = x)) as [-> |Hne]; [done|].
    apply elem_of_cons in Hin as [-> |Hin]; [done|]. by apply IH.
Qed.

Lemma lookup_index_of x l k : NoDup l → l !! k = Some x → index_of x l = k.
Proof.
  intros Hnd. revert k. induction Hnd as [|y l Hy Hnd IH]; intros k Hk; [done|].
  simpl. destruct k as [|k]; simpl in Hk.
  - injection Hk as ->. by rewrite decide_True.
  - rewrite decide_False; [by rewrite (IH k)|].
    intros ->. apply Hy. by eapply list_elem_of_lookup_2.
Qed.

Lemma see_NoDup seen x : NoDup seen → NoDup (see seen x).
Proof.
  intros Hnd. unfold see. case_decide; [done|].
  apply NoDup_app. split_and!; [done| |apply NoDup_singleton].
  intros y Hy ->%list_elem_of_singleton. done.
Qed.

Lemma see_elem seen x y : y ∈ see seen x ↔ y ∈ seen ∨ y = x.
Proof.
  unfold see. case_decide.
  - split; [by left|]. intros [| ->]; done.
  - rewrite elem_of_app, list_elem_of_singleton. done.
Qed.

Lemma foldl_see_prefix ids seen : ∃ more, foldl see seen ids = seen ++ more.
Proof.
  revert seen. induction ids as [|x ids IH]; intros seen; simpl.
  - exists []. by rewrite app_nil_r.
  - destruct (IH (see seen x)) as [more ->]. unfold see. case_decide.
    + by exists more.
    + exists (x :: more). by rewrite <-app_assoc.
Qed.

Lemma foldl_see_NoDup ids seen : NoDup seen → NoDup (foldl see seen ids).
Proof.
  revert seen. induction ids as [|x ids IH]; intros seen Hnd; simpl; [done|].
  by apply IH, see_NoDup.
Qed.

Lemma foldl_see_elem ids seen y : y ∈ foldl see seen ids ↔ y ∈ seen ∨ y ∈ ids.
Proof.
  revert seen. induction ids as [|x ids IH]; intros seen; simpl.
  - rewrite elem_of_nil. tauto.
  - rewrite IH, see_elem, elem_of_cons. tauto.
Qed.

Lemma first_seen_NoDup ids : NoDup (first_seen ids).
Proof. apply foldl_see_NoDup, NoDup_nil_2. Qed.

Lemma first_seen_elem ids y : y ∈ first_seen ids ↔ y ∈ ids.
Proof. unfold first_seen. rewrite foldl_see_elem, elem_of_nil. tauto. Qed.

(** An id keeps its position when more ids are seen. *)
Lemma index_of_foldl_see x seen ids :
  x ∈ seen → index_of x (foldl see seen ids) = index_of x seen.
Proof.
  intros Hin. destruct (foldl_see_prefix ids seen) as [more ->].
  by apply index_of_app.
Qed.

End FirstSeenFacts.

Lemma see_fmap {A B} `{EqDecision A} `{EqDecision B} (f : A → B) `{!Inj (=) (=) f}
    (seen : list A) (x : A) :
  see (f <$> seen) (f x) = f <$> see seen x.
Proof.
  unfold see. destruct (decide (x ∈ seen)) as [Hin|Hnin].
  - rewrite decide_True; [done|]. by apply list_elem_of_fmap_2.
  - rewrite decide_False.
    + by rewrite fmap_app.
    + intros (y & Heq & Hy)%list_elem_of_fmap. by apply (inj f) in Heq as <-.
Qed.

Lemma foldl_see_fmap {A B} `{EqDecision A} `{EqDecision B} (f : A → B) `{!Inj (=) (=) f}
    (ids seen : list A) :
  foldl see (f <$> seen) (f <$> ids) = f <$> foldl see seen ids.
Proof.
  revert seen. induction ids as [|x ids IH]; intros seen; csimpl; [done|].
  by rewrite see_fmap, IH.
Qed.

Lemma index_of_fmap {A B} `{EqDecision A} `{EqDecision B} (f : A → B) `{!Inj (=) (=) f}
    (x : A) (l : list A) :
  index_of (f x) (f <$> l) = index_of x l.
Proof.
  induction l as [|y l IH]; csimpl; [done|].
  destruct (decide (y = x)) as [-> |Hne].
  - by rewrite decide_True.
  - rewrite decide_False; [by rewrite IH|]. intros Heq. by apply (inj f) in Heq.
Qed.

Lemma set_speakerMap_same s : set_speakerMap (speakerMap s) s = s.
Proof. by destruct s. Qed.

Lemma allocated_empty : allocated [] ∅.
Proof.
  split; [apply NoDup_nil_2|]. intros id. rewrite lookup_empty.
  rewrite decide_False; [done|]. apply not_elem_of_nil.
Qed.

Lemma allocated_size seen m : allocated seen m → size m = length seen.
Proof.
  intros [Hnd Hm].
  rewrite <-size_dom, <-(size_list_to_set (C := gset (option Z)) seen Hnd).
  f_equal. apply set_eq. intros id.
  rewrite elem_of_dom, elem_of_list_to_set, Hm.
  case_decide; split; done.
Qed.

Lemma getSpeakerLabel_allocated seen s id :
  allocated seen (speakerMap s) →
  ∃ m', getSpeakerLabel id s
          = (label_of_index (index_of id (see seen id)), set_speakerMap m' s)
        ∧ allocated (see seen id) m'.
Proof.
  intros Hal. pose proof (allocated_size _ _ Hal) as Hsize.
  destruct Hal as [Hnd Hm]. unfold getSpeakerLabel, see. rewrite Hm.
  destruct (decide (id ∈ seen)) as [Hin|Hnin].
  - rewrite label_of_index_truthy. exists (speakerMap s).
    by rewrite set_speakerMap_same.
  - cbn [truthy]. rewrite Hsize, index_of_fresh by done.
    eexists. split; [reflexivity|]. split.
    + apply NoDup_app. split_and!; [done| |apply NoDup_singleton].
      by intros y Hy ->%list_elem_of_singleton.
    + intros id'. destruct (decide (id' = id)) as [-> |Hne].
      * rewrite lookup_insert_eq, decide_True, index_of_fresh; [done..|].
        apply elem_of_app. right. by apply list_elem_of_singleton.
      * rewrite lookup_insert_ne, Hm by done.
        destruct (decide (id' ∈ seen)) as [Hin'|Hnin'].
        -- rewrite decide_True, index_of_app; [done..|].
           apply elem_of_app. by left.
        -- rewrite decide_False; [done|].
           rewrite elem_of_app, list_elem_of_singleton. tauto.
Qed.

Lemma label_all_allocated ids seen s :
  allocated seen (speakerMap s) →
  ∃ m', label_all ids s
          = ((λ id, label_of_index (index_of id (foldl see seen ids))) <$> ids,
             set_speakerMap m' s)
        ∧ allocated (foldl see seen ids) m'.
Proof.
  revert seen s. induction ids as [|id ids IH]; intros seen s Hal.
  - exists (speakerMap s). by rewrite set_speakerMap_same.
  - destruct (getSpeakerLabel_allocated _ _ id Hal) as (m1 & Hget & Hal1).
    destruct (IH (see seen id) (set_speakerMap m1 s) Hal1) as (m' & Hall & Hal').
    exists m'. split; [|done].
    cbn [label_all foldl]. rewrite Hget, Hall. csimpl.
    rewrite index_of_foldl_see; [done|]. apply see_elem. by right.
Qed.

(** Labels are handed out in first-seen order, from an empty table. *)
Lemma label_all_first_seen (ids : list Z) s :
  speakerMap s = ∅ →
  (label_all (Some <$> ids) s).1 = first_seen_labels ids.
Proof.
  intros Hempty.
  destruct (label_all_allocated (Some <$> ids) [] s) as (m' & Hall & _).
  { rewrite Hempty. apply allocated_empty. }
  rewrite Hall. cbn [fst]. unfold first_seen_labels, first_seen.
  rewrite <-list_fmap_compose. apply list_fmap_ext. intros _ id _. cbn.
  f_equal. transitivity (index_of (Some id) (Some <$> foldl see [] ids)).
  - f_equal. apply (foldl_see_fmap Some ids []).
  - apply (index_of_fmap Some).
Qed.

(** ** Segmentation *)

Lemma segments_cons w ws :
  segments (w :: ws) =
  match segments ws with
  | (id, group) :: more =>
      if bool_decide (speaker_of w = id)
      then (id, w :: group) :: more
      else (speaker_of w, [w]) :: (id, group) :: more
  | [] => [(speaker_of w, [w])]
  end.
Proof. reflexivity. Qed.

Lemma segments_head w ws :
  ∃ group more, segments (w :: ws) = (speaker_of w, w :: group) :: more.
Proof.
  rewrite segments_cons. destruct (segments ws) as [|[id group] more]; [by eauto|].
  case_bool_decide; subst; eauto.
Qed.

(** A run of one speaker, followed by a word of another speaker or by
    nothing, is a segment of its own. *)
Lemma segments_run_app c run ws :
  run ≠ [] →
  Forall (λ w, speaker_of w = c) run →
  (∀ w, head ws = Some w → speaker_of w ≠ c) →
  segments (run ++ ws) = (c, run) :: segments ws.
Proof.
  intros Hne Hrun Hnext. induction Hrun as [|a run Ha Hrun IH]; [done|].
  destruct run as [|b run].
  - clear IH. cbn [app]. rewrite segments_cons. destruct ws as [|w ws].
    + by rewrite Ha.
    + destruct (segments_head w ws) as (group & more & ->).
      rewrite bool_decide_false; [by rewrite Ha|].
      rewrite Ha. intros Heq. by apply (Hnext w).
  - change ((a :: b :: run) ++ ws) with (a :: ((b :: run) ++ ws)).
    rewrite segments_cons, IH by done. by rewrite bool_decide_true.
Qed.

Lemma loop_finish ws : ∀ run c st s st' s1,
  Forall (λ w, speaker_of w = c) run →
  currentWords st = word_text <$> run →
  currentSpeaker st = match run with [] => None | _ :: _ => Some c end →
  foldl loop_body (st, s) ws = (st', s1) →
  push_line st' s1 =
    (lines st ++ (lines_from (segments (run ++ ws)) s).1,
     (lines_from (segments (run ++ ws)) s).2).
Proof.
  induction ws as [|w ws IH]; intros run c st s st' s1 Hrun Hwords Hcur Hloop.
  - cbn in Hloop. injection Hloop as <- <-.
    unfold push_line. rewrite Hwords. destruct run as [|a run].
    + cbn. by rewrite app_nil_r.
    + rewrite (segments_run_app c (a :: run) []), Hcur; [|done..].
      csimpl. destruct (getSpeakerLabel (Some c) s) as [label s'].
      done.
  - cbn [foldl] in Hloop. unfold loop_body at 2 in Hloop.
    fold (speaker_of w) in Hloop.
    destruct (decide (Some (speaker_of w) = currentSpeaker st)) as [Hsame|Hdiff].
    + rewrite bool_decide_false in Hloop by (by intros ?).
      destruct run as [|a run]; [by rewrite Hcur in Hsame|].
      rewrite Hcur in Hsame. injection Hsame as Hsame.
      opose proof (IH ((a :: run) ++ [w]) c _ _ _ _ _ _ _ Hloop) as ->.
      * apply Forall_app. split; [done|]. by apply Forall_singleton.
      * cbn [currentWords]. by rewrite Hwords, fmap_app.
      * by rewrite Hcur.
      * cbn [lines]. by rewrite <-app_assoc.
    + rewrite bool_decide_true in Hloop by done.
      destruct (push_line st s) as [pushed s0] eqn:Hpush. cbn in Hloop.
      opose proof (IH [w] (speaker_of w) _ _ _ _ _ _ _ Hloop) as ->.
      * by apply Forall_singleton.
      * done.
      * done.
      * cbn [lines]. unfold push_line in Hpush. rewrite Hwords in Hpush.
        destruct run as [|a run]; csimpl in Hpush.
        -- by injection Hpush as <- <-.
        -- rewrite Hcur in Hpush, Hdiff.
           rewrite (segments_run_app c (a :: run) (w :: ws)); [|done..|].
           ++ cbn [lines_from].
              destruct (getSpeakerLabel (Some c) s) as [label s'].
              injection Hpush as <- <-. cbn [app].
              destruct (lines_from (segments (w :: ws)) s') as [rest s2].
              cbn [fst snd]. by rewrite <-app_assoc.
           ++ intros ? [= <-] Heq. apply Hdiff. by rewrite Heq.
Qed.

Lemma lines_from_label_all segs s :
  lines_from segs s =
    (zip_with render (label_all (Some <$> segs.*1) s).1 (texts word_text <$> segs.*2),
     (label_all (Some <$> segs.*1) s).2).
Proof.
  revert s. induction segs as [|[id group] more IH]; intros s; [done|].
  csimpl. destruct (getSpeakerLabel (Some id) s) as [label s1].
  rewrite IH. by destruct (label_all (Some <$> more.*1) s1).
Qed.

Lemma segments_concat ws : concat (segments ws).*2 = ws.
Proof.
  induction ws as [|w ws IH]; [done|]. rewrite segments_cons.
  destruct (segments ws) as [|[id group] more]; csimpl in *.
  - by rewrite <-IH.
  - case_bool_decide; csimpl; by rewrite <-IH.
Qed.

Lemma segments_uniform ws :
  Forall (λ seg, seg.2 ≠ [] ∧ Forall (λ w, speaker_of w = seg.1) seg.2) (segments ws).
Proof.
  induction ws as [|w ws IH]; [by apply Forall_nil|]. rewrite segments_cons.
  destruct (segments ws) as [|[id group] more].
  - apply Forall_singleton. split; [done|]. by apply Forall_singleton.
  - apply Forall_cons in IH as [[Hne Hgroup] Hmore]. cbn in Hne, Hgroup.
    case_bool_decide.
    + apply Forall_cons. split; [|done]. split; [done|]. cbn. by apply Forall_cons.
    + apply Forall_cons. split.
      * split; [done|]. cbn. by apply Forall_singleton.
      * apply Forall_cons. by split.
Qed.

Lemma segments_adjacent ws i a b :
  (segments ws).*1 !! i = Some a → (segments ws).*1 !! S i = Some b → a ≠ b.
Proof.
  revert i. induction ws as [|w ws IH]; intros i; [done|]. rewrite segments_cons.
  destruct (segments ws) as [|[id group] more]; [done|].
  case_bool_decide; csimpl.
  - destruct i; [|apply (IH (S i))]. apply (IH 0).
  - destruct i; [|apply (IH i)]. cbn. by intros [= <-] [= <-].
Qed.

(** The segmentation branch of [transcribeRecording]. *)
Lemma transcribeRecording_words res s data alternative ws :
  ok res = true →
  json res = Some data →
  first_alternative data = Some alternative →
  words alternative = Some ws →
  ws ≠ [] →
  transcribeRecording res s =
    (inr (String.concat newline (lines_from (segments ws) (set_speakerMap ∅ s)).1),
     (lines_from (segments ws) (set_speakerMap ∅ s)).2).
Proof.
  intros Hok Hjson Halt Hwords Hne. unfold transcribeRecording, first_alternative in *.
  rewrite Hok, Hjson. cbn [negb].
  destruct (((results data ≫= channels) ≫= head) ≫= alternatives) as [[|a rest]|];
    try done.
  injection Halt as ->. rewrite Hwords.
  destruct ws as [|w ws]; [done|]. cbn [default from_option id]. cbv zeta.
  destruct (foldl loop_body _ (w :: ws)) as [st s1] eqn:Hloop.
  opose proof (loop_finish (w :: ws) [] 0%Z _ _ _ _ _ _ _ Hloop) as ->; done.
Qed.

Lemma lines_from_first_seen segs s :
  speakerMap s = ∅ →
  (lines_from segs s).1 =
    zip_with render (first_seen_labels segs.*1) (texts word_text <$> segs.*2).
Proof.
  intros Hempty. rewrite lines_from_label_all. cbn [fst].
  by rewrite label_all_first_seen.
Qed.

(** ** Claims on the label allocator *)

(** C3. Present any sequence of speaker ids to the allocator, starting
    from an empty table. Each presentation of the id that is the [k]-th
    distinct id in first-seen order (counting from 0) is answered with
    [label_of_index k]; every presented id has such a position, and only
    one, since the distinct ids are listed without repetition; and the
    labels of positions 0 to 10 are "Speaker A" to "Speaker J", pairwise
    different, followed by "Speaker 10", the allocation index of the 11th
    distinct id. *)
Theorem getSpeakerLabel_first_seen_order (ids : list Z) (s : Session) :
  speakerMap s = ∅ →
  (∀ i id k,
     ids !! i = Some id → first_seen ids !! k = Some id →
     (label_all (Some <$> ids) s).1 !! i = Some (label_of_index k))
  ∧ (∀ i id,
       ids !! i = Some id →
       first_seen ids !! index_of id (first_seen ids) = Some id)
  ∧ NoDup (first_seen ids)
  ∧ (∀ id, id ∈ first_seen ids ↔ id ∈ ids)
  ∧ label_of_index <$> seq 0 11 =
      ["Speaker A"; "Speaker B"; "Speaker C"; "Speaker D"; "Speaker E";
       "Speaker F"; "Speaker G"; "Speaker H"; "Speaker I"; "Speaker J";
       "Speaker 10"]
  ∧ NoDup (label_of_index <$> seq 0 11).
Proof.
  intros Hempty. split_and!.
  - intros i id k Hi Hk. rewrite label_all_first_seen by done.
    unfold first_seen_labels. rewrite list_lookup_fmap, Hi. cbn.
    by rewrite (lookup_index_of id (first_seen ids) k (first_seen_NoDup ids) Hk).
  - intros i id Hi. apply index_of_lookup, first_seen_elem.
    by eapply list_elem_of_lookup_2.
  - apply first_seen_NoDup.
  - apply first_seen_elem.
  - reflexivity.
  - apply (bool_decide_unpack _). by vm_compute.
Qed.

(** Eleven distinct ids, the first one presented again at the end: the
    11th distinct id, 42, is answered "Speaker 10" and the repeated first
    id "Speaker A". *)
Lemma getSpeakerLabel_first_seen_order_witness :
  speakerMap (constructor "key") = ∅ ∧
  (label_all (Some <$> [7; 3; 9; 1; 0; 5; 8; 2; 6; 4; 42; 7]%Z) (constructor "key")).1 !! 10
    = Some "Speaker 10" ∧
  (label_all (Some <$> [7; 3; 9; 1; 0; 5; 8; 2; 6; 4; 42; 7]%Z) (constructor "key")).1 !! 11
    = Some "Speaker A".
Proof.
  split; [reflexivity|].
  pose proof (getSpeakerLabel_first_seen_order
                [7; 3; 9; 1; 0; 5; 8; 2; 6; 4; 42; 7]%Z (constructor "key") eq_refl)
    as [Hlabel _].
  split.
  - exact (Hlabel 10 42%Z 10 eq_refl eq_refl).
  - exact (Hlabel 11 7%Z 0 eq_refl eq_refl).
Defined.

(** C8. For every id (and for [null]) and every table, a second call of
    [getSpeakerLabel] with the same id returns the label of the first call
    and leaves the session, hence the table, as the first call left it. *)
Theorem getSpeakerLabel_idempotent (speakerId : option Z) (s : Session) :
  (getSpeakerLabel speakerId (getSpeakerLabel speakerId s).2).1
    = (getSpeakerLabel speakerId s).1
  ∧ (getSpeakerLabel speakerId (getSpeakerLabel speakerId s).2).2
    = (getSpeakerLabel speakerId s).2.
Proof.
  unfold getSpeakerLabel.
  destruct (truthy (speakerMap s !! speakerId)) as [label|] eqn:Hfound; cbn [fst snd].
  - by rewrite Hfound.
  - cbn [speakerMap set_speakerMap].
    by rewrite lookup_insert_eq, label_of_index_truthy.
Qed.

(** ** Strings *)

Lemma string_app_assoc (a b c : string) : (a +:+ b) +:+ c = a +:+ b +:+ c.
Proof.
  induction a as [|x a IH]; [done|].
  change (String x ((a +:+ b) +:+ c) = String x (a +:+ b +:+ c)). by rewrite IH.
Qed.

Lemma string_app_nil_r (a : string) : a +:+ "" = a.
Proof.
  induction a as [|x a IH]; [done|].
  change (String x (a +:+ "") = String x a). by rewrite IH.
Qed.

Lemma includes_middle (before needle after : string) :
  includes (before +:+ needle +:+ after) needle.
Proof. by exists before, after. Qed.

Lemma includes_end (before needle : string) : includes (before +:+ needle) needle.
Proof. exists before, "". by rewrite string_app_nil_r. Qed.

(** ** Claims on the batch path *)

Lemma word_text_nonempty w : word_text w = punctuated_if_nonempty w.
Proof.
  unfold word_text, punctuated_if_nonempty, truthy, nonempty.
  destruct (punctuated_word w) as [punctuated|]; [|done].
  by destruct (String.eqb punctuated "").
Qed.

Lemma segmented_transcript_ext (f g : Word → string) ws :
  (∀ w, f w = g w) → segmented_transcript f ws = segmented_transcript g ws.
Proof.
  intros Hfg. unfold segmented_transcript. do 2 f_equal.
  apply list_fmap_ext. intros _ group _. unfold texts.
  apply list_fmap_ext. intros _ w _. apply Hfg.
Qed.

(** C1, as amended. For a successful response whose first alternative
    has a non-empty word list [ws], [transcribeRecording] returns the
    transcript of the specification, in which a word contributes its
    punctuated form if present and not empty, else its raw form; it ends in
    the session reached by resetting the table and resolving the labels of
    the segments in encounter order. The segments are the maximal runs: put
    end to end they give [ws] back, each is non-empty and of one speaker id,
    and two neighbours have different ids. The last segment is rendered
    like the others. *)
Theorem transcribeRecording_segmented res s data alternative ws :
  ok res = true →
  json res = Some data →
  first_alternative data = Some alternative →
  words alternative = Some ws →
  ws ≠ [] →
  (transcribeRecording res s).1 = inr (segmented_transcript punctuated_if_nonempty ws)
  ∧ (transcribeRecording res s).2
      = (label_all (Some <$> (segments ws).*1) (set_speakerMap ∅ s)).2
  ∧ concat (segments ws).*2 = ws
  ∧ Forall (λ seg, seg.2 ≠ [] ∧ Forall (λ w, speaker_of w = seg.1) seg.2) (segments ws)
  ∧ (∀ i a b,
       (segments ws).*1 !! i = Some a → (segments ws).*1 !! S i = Some b → a ≠ b).
Proof.
  intros Hok Hjson Halt Hwords Hne.
  rewrite (transcribeRecording_words _ _ _ _ _ Hok Hjson Halt Hwords Hne).
  cbn [fst snd]. split_and!.
  - rewrite lines_from_first_seen by done.
    f_equal. apply (segmented_transcript_ext word_text), word_text_nonempty.
  - by rewrite lines_from_label_all.
  - apply segments_concat.
  - apply segments_uniform.
  - apply segments_adjacent.
Qed.

(** The words of the specification's example give its transcript. *)
Lemma transcribeRecording_segmented_witness :
  ok (batch_response [said "hi" 0; said "there" 0; said "bye" 1]) = true ∧
  [said "hi" 0; said "there" 0; said "bye" 1] ≠ [] ∧
  (transcribeRecording (batch_response [said "hi" 0; said "there" 0; said "bye" 1])
     (constructor "key")).1
    = inr ("Speaker A: hi there" +:+ newline +:+ "Speaker B: bye").
Proof.
  split; [reflexivity|]. split; [discriminate|].
  refine (proj1 (transcribeRecording_segmented
                   (batch_response [said "hi" 0; said "there" 0; said "bye" 1])
                   (constructor "key") _ _ _ eq_refl eq_refl eq_refl eq_refl _)).
  discriminate.
Defined.

(** C1 as stated fails: a word whose punctuated form is present but empty
    contributes its raw form. *)
Lemma transcribeRecording_segmented_counterexample :
  (transcribeRecording
     (batch_response [{| word := "hi"; punctuated_word := Some ""; speaker := Some 0%Z |}])
     (constructor "key")).1
    = inr "Speaker A: hi"
  ∧ segmented_transcript punctuated_if_present
      [{| word := "hi"; punctuated_word := Some ""; speaker := Some 0%Z |}]
    = "Speaker A: "
  ∧ (transcribeRecording
       (batch_response [{| word := "hi"; punctuated_word := Some ""; speaker := Some 0%Z |}])
       (constructor "key")).1
    ≠ inr (segmented_transcript punctuated_if_present
             [{| word := "hi"; punctuated_word := Some ""; speaker := Some 0%Z |}]).
Proof. split_and!; [reflexivity..|]. vm_compute. discriminate. Qed.

(** The early returns of [transcribeRecording]. *)
Lemma transcribeRecording_no_alternative res s data :
  ok res = true → json res = Some data → first_alternative data = None →
  transcribeRecording res s = (inr "", s).
Proof.
  intros Hok Hjson Halt. unfold transcribeRecording, first_alternative in *.
  rewrite Hok, Hjson. cbn [negb].
  by destruct (((results data ≫= channels) ≫= head) ≫= alternatives) as [[|a rest]|].
Qed.

Lemma transcribeRecording_no_words res s data alternative :
  ok res = true → json res = Some data → first_alternative data = Some alternative →
  default [] (words alternative) = [] →
  transcribeRecording res s = (inr (default "" (transcript alternative)), s).
Proof.
  intros Hok Hjson Halt Hwords. unfold transcribeRecording, first_alternative in *.
  rewrite Hok, Hjson. cbn [negb].
  destruct (((results data ≫= channels) ≫= head) ≫= alternatives) as [[|a rest]|];
    try done.
  injection Halt as ->. by rewrite Hwords.
Qed.

Lemma transcribeRecording_untouched res s :
  word_list res = [] → (transcribeRecording res s).2 = s.
Proof.
  unfold word_list. intros Hnone.
  destruct (ok res) eqn:Hok; [|by unfold transcribeRecording; rewrite Hok].
  destruct (json res) as [data|] eqn:Hjson;
    [|by unfold transcribeRecording; rewrite Hok, Hjson].
  cbn in Hnone. destruct (first_alternative data) as [alternative|] eqn:Halt.
  - by rewrite (transcribeRecording_no_words _ _ _ _ Hok Hjson Halt Hnone).
  - by rewrite (transcribeRecording_no_alternative _ _ _ Hok Hjson Halt).
Qed.

Lemma transcribeRecording_word_list res s :
  word_list res ≠ [] →
  transcribeRecording res s =
    (inr (String.concat newline
            (lines_from (segments (word_list res)) (set_speakerMap ∅ s)).1),
     (lines_from (segments (word_list res)) (set_speakerMap ∅ s)).2).
Proof.
  unfold word_list. intros Hsome.
  destruct (ok res) eqn:Hok; [|done].
  destruct (json res) as [data|] eqn:Hjson; [|done]. cbn in Hsome |- *.
  destruct (first_alternative data) as [alternative|] eqn:Halt; [|done].
  cbn in Hsome |- *. destruct (words alternative) as [ws|] eqn:Hwords; [|done].
  cbn in Hsome |- *. by apply (transcribeRecording_words _ _ data alternative).
Qed.

(** C7. For a successful response: when the first channel has no
    alternative (or there is no channel) the result is the empty string;
    when the first alternative has no word list, or an empty one, the
    result is its flat transcript, unchanged and without a label (the
    empty string when the alternative has no transcript either). The
    session is as before in both cases. *)
Theorem transcribeRecording_without_words res s data :
  ok res = true →
  json res = Some data →
  (first_alternative data = None → transcribeRecording res s = (inr "", s))
  ∧ (∀ alternative flat,
       first_alternative data = Some alternative →
       words alternative = None ∨ words alternative = Some [] →
       transcript alternative = Some flat →
       transcribeRecording res s = (inr flat, s))
  ∧ (∀ alternative,
       first_alternative data = Some alternative →
       words alternative = None ∨ words alternative = Some [] →
       transcribeRecording res s = (inr (default "" (transcript alternative)), s)).
Proof.
  intros Hok Hjson. split_and!.
  - by apply transcribeRecording_no_alternative.
  - intros alternative flat Halt Hwords Hflat.
    rewrite (transcribeRecording_no_words _ _ _ alternative Hok Hjson Halt).
    + by rewrite Hflat.
    + by destruct Hwords as [-> | ->].
  - intros alternative Halt Hwords.
    apply (transcribeRecording_no_words _ _ _ alternative Hok Hjson Halt).
    by destruct Hwords as [-> | ->].
Qed.

(** The specification's example: an empty word list and the flat
    transcript "hello world". *)
Lemma transcribeRecording_without_words_witness :
  ok flat_response = true ∧
  transcribeRecording flat_response (constructor "key")
  = (inr "hello world", constructor "key").
Proof.
  split; [reflexivity|].
  apply (proj1 (proj2 (transcribeRecording_without_words
                         flat_response (constructor "key") _ eq_refl eq_refl))
           {| transcript := Some "hello world"; confidence := None; words := Some [] |}
           "hello world" eq_refl (or_intror eq_refl) eq_refl).
Defined.

(** C6. When the response is not [ok], [transcribeRecording] throws an
    [Error] whose message is "Deepgram: ", the status in decimal, a space
    and the body text, so that it includes both; there is no transcript,
    and the session is as before. *)
Theorem transcribeRecording_http_failure res s :
  ok res = false →
  transcribeRecording res s
    = (inl (Error ("Deepgram: " +:+ pretty (status res) +:+ " " +:+ text res)), s)
  ∧ includes ("Deepgram: " +:+ pretty (status res) +:+ " " +:+ text res)
             (pretty (status res))
  ∧ includes ("Deepgram: " +:+ pretty (status res) +:+ " " +:+ text res)
             (text res).
Proof.
  intros Hok. split_and!.
  - unfold transcribeRecording. by rewrite Hok.
  - apply includes_middle.
  - rewrite <-!string_app_assoc. apply includes_end.
Qed.

(** A 401 with body "Unauthorized". *)
Lemma transcribeRecording_http_failure_witness :
  ok {| ok := false; status := 401; text := "Unauthorized"; json := None |} = false ∧
  transcribeRecording
    {| ok := false; status := 401; text := "Unauthorized"; json := None |}
    (constructor "key")
  = (inl (Error "Deepgram: 401 Unauthorized"), constructor "key").
Proof.
  split; [reflexivity|].
  exact (proj1 (transcribeRecording_http_failure
                  {| ok := false; status := 401; text := "Unauthorized"; json := None |}
                  (constructor "key") eq_refl)).
Defined.

(** ** Claims on [close()] and on the reset of the table *)

Lemma lines_from_frame segs s :
  ∃ m, (lines_from segs (set_speakerMap ∅ s)).2 = set_speakerMap m s.
Proof.
  rewrite lines_from_label_all. cbn [snd].
  destruct (label_all_allocated (Some <$> segs.*1) [] (set_speakerMap ∅ s)
              allocated_empty) as (m & -> & _).
  by exists m.
Qed.

(** [transcribeRecording] changes nothing but the table. *)
Lemma transcribeRecording_frame res s :
  ∃ m, (transcribeRecording res s).2 = set_speakerMap m s.
Proof.
  destruct (decide (word_list res = [])) as [Hnone|Hsome].
  - exists (speakerMap s).
    by rewrite transcribeRecording_untouched, set_speakerMap_same.
  - rewrite transcribeRecording_word_list by done. apply lines_from_frame.
Qed.

(** The session [close()] leaves. *)
Lemma close_session (s : Session) :
  (close s).1 =
    {| apiKey := apiKey s;
       socket := None;
       listeners := listeners s;
       isConnected := false;
       reconnectAttempts := reconnectAttempts s;
       maxReconnectAttempts := maxReconnectAttempts s;
       speakerMap := ∅ |}.
Proof.
  unfold close. destruct (socket s) as [handle|] eqn:Hsocket; cbn.
  - reflexivity.
  - unfold set_speakerMap, set_isConnected. cbn. by rewrite Hsocket.
Qed.

(** C9. After [close()] the connection handle is [null], the status is
    disconnected and the table is empty; the credential, the attempt
    counter, the ceiling and the listeners are those of the session it was
    called on. *)
Theorem close_frame (s : Session) :
  socket (close s).1 = None
  ∧ isConnected (close s).1 = false
  ∧ speakerMap (close s).1 = ∅
  ∧ apiKey (close s).1 = apiKey s
  ∧ reconnectAttempts (close s).1 = reconnectAttempts s
  ∧ maxReconnectAttempts (close s).1 = maxReconnectAttempts s
  ∧ listeners (close s).1 = listeners s.
Proof. by rewrite close_session. Qed.

(** C4, as amended. [close()] always empties the table, so that the next
    [getSpeakerLabel(0)] answers "Speaker A" and leaves a table with that
    single entry. A batch call that reaches the segmentation (a successful
    response with a non-empty word list) behaves as on a session whose
    table is empty; every other batch call returns the session as it
    was. *)
Theorem speakerMap_reset (s : Session) :
  speakerMap (close s).1 = ∅
  ∧ getSpeakerLabel (Some 0%Z) (close s).1
      = ("Speaker A", set_speakerMap {[ Some 0%Z := "Speaker A" ]} (close s).1)
  ∧ (∀ res, word_list res ≠ [] →
       transcribeRecording res s = transcribeRecording res (set_speakerMap ∅ s))
  ∧ (∀ res, word_list res = [] → (transcribeRecording res s).2 = s).
Proof.
  split_and!.
  - by rewrite close_session.
  - by rewrite close_session.
  - intros res Hsome. by rewrite !transcribeRecording_word_list.
  - intros res. apply transcribeRecording_untouched.
Qed.

(** A batch call on words starts from an empty table even when the
    session has labelled speaker 5 before: speaker 0 is "Speaker A". *)
Lemma speakerMap_reset_witness :
  word_list (batch_response [said "hi" 0]) ≠ [] ∧
  transcribeRecording (batch_response [said "hi" 0]) labelled_session
    = (inr "Speaker A: hi",
       set_speakerMap {[ Some 0%Z := "Speaker A" ]} labelled_session).
Proof.
  split; [discriminate|].
  rewrite (proj1 (proj2 (proj2 (speakerMap_reset labelled_session)))
             (batch_response [said "hi" 0])); [reflexivity|discriminate].
Defined.

(** C4 as stated fails: a batch call that returns before the segmentation
    keeps the table, and the next [getSpeakerLabel(0)] answers
    "Speaker B". *)
Lemma speakerMap_reset_counterexample :
  speakerMap labelled_session = {[ Some 5%Z := "Speaker A" ]}
  ∧ transcribeRecording flat_response labelled_session
      = (inr "hello world", labelled_session)
  ∧ speakerMap (transcribeRecording flat_response labelled_session).2 ≠ ∅
  ∧ (getSpeakerLabel (Some 0%Z)
       (transcribeRecording flat_response labelled_session).2).1 = "Speaker B".
Proof.
  split_and!; [reflexivity..| |reflexivity].
  intros Hempty. apply (f_equal (λ m, m !! Some 5%Z)) in Hempty. discriminate.
Qed.

(** ** Claims on the streaming path *)

Lemma truthy_Some v x : truthy v = Some x ↔ v = Some x ∧ x ≠ "".
Proof.
  unfold truthy, nonempty. destruct v as [y|]; [|by split; [|intros []]].
  destruct (String.eqb_spec y "") as [-> |Hne]; cbn.
  - split; [done|]. by intros [[= <-] ?].
  - split; [by intros [= <-]|]. by intros [[= <-] _].
Qed.

Lemma first_speaker_read alternative :
  default 0%Z (head (default [] (words alternative)) ≫= speaker)
    = first_speaker alternative.
Proof. unfold first_speaker. by destruct (words alternative) as [[|w rest]|]. Qed.

Lemma handleMessage_final JSON_parse data now s parsed alternative transcript_text :
  JSON_parse data = Some parsed →
  final_transcript parsed alternative transcript_text →
  handleMessage JSON_parse data now s
    = ((getSpeakerLabel (Some (first_speaker alternative)) s).2,
       [transcript_event alternative transcript_text now s]).
Proof.
  intros Hparse (Htype & Halt & Htext & Hne & Hfinal).
  unfold handleMessage, transcript_event.
  rewrite Hparse, bool_decide_false, Halt by done.
  rewrite (proj2 (truthy_Some _ _) (conj Htext Hne)), Hfinal.
  rewrite first_speaker_read.
  by destruct (getSpeakerLabel (Some (first_speaker alternative)) s).
Qed.

Lemma handleMessage_silent JSON_parse data now s :
  (∀ parsed alternative transcript_text,
     JSON_parse data = Some parsed →
     ¬ final_transcript parsed alternative transcript_text) →
  handleMessage JSON_parse data now s = (s, []).
Proof.
  intros Hnot. unfold handleMessage.
  destruct (JSON_parse data) as [parsed|]; [|done].
  case_bool_decide as Htype; [done|].
  destruct ((channel parsed ≫= alternatives) ≫= head) as [alternative|] eqn:Halt;
    [|done].
  destruct (truthy (transcript alternative)) as [transcript_text|] eqn:Htext;
    [|done].
  destruct (is_final parsed) as [[|]|] eqn:Hfinal; try done.
  apply truthy_Some in Htext as [Htext Hne].
  by destruct (Hnot parsed alternative transcript_text eq_refl).
Qed.

(** Either the payload is a final transcript or it is not. *)
Lemma final_transcript_cases (JSON_parse : string → option StreamMessage) (data : string) :
  (∃ parsed alternative transcript_text,
     JSON_parse data = Some parsed ∧
     final_transcript parsed alternative transcript_text)
  ∨ (∀ parsed alternative transcript_text,
       JSON_parse data = Some parsed →
       ¬ final_transcript parsed alternative transcript_text).
Proof.
  unfold final_transcript.
  destruct (JSON_parse data) as [parsed|]; [|by right].
  destruct (decide (type parsed = Some "Metadata")) as [Hmeta|Htype].
  { right. by intros ? ? ? [= <-] (? & _). }
  destruct ((channel parsed ≫= alternatives) ≫= head) as [alternative|] eqn:Halt.
  2: { right. intros ? ? ? [= <-] (_ & ? & _). congruence. }
  destruct (truthy (transcript alternative)) as [transcript_text|] eqn:Htext.
  2: { right. intros ? a t [= <-] (_ & Ha & Ht & Hne & _).
       assert (a = alternative) as -> by congruence.
       by rewrite (proj2 (truthy_Some _ _) (conj Ht Hne)) in Htext. }
  apply truthy_Some in Htext as [Htext Hne].
  destruct (decide (is_final parsed = Some true)) as [Hfinal|Hfinal].
  - left. by exists parsed, alternative, transcript_text.
  - right. by intros ? ? ? [= <-] (_ & _ & _ & _ & ?).
Qed.

(** C2. [handleMessage] emits exactly when the payload parses to a message
    that is not typed Metadata, whose first alternative has a non-empty
    transcript, and that is marked final. The event then emitted is the
    "transcript" event with that text, the label the allocator gives to
    the speaker id of the first word (0 without a first word), that id,
    the confidence, the current time and finality true, and the session
    is the one the allocator leaves. A Metadata message, a message not
    marked final and a message without transcript text emit nothing and
    leave the session as it was. *)
Theorem handleMessage_emits JSON_parse data now s :
  ((handleMessage JSON_parse data now s).2 ≠ [] ↔
     ∃ parsed alternative transcript_text,
       JSON_parse data = Some parsed ∧
       final_transcript parsed alternative transcript_text)
  ∧ (∀ parsed alternative transcript_text,
       JSON_parse data = Some parsed →
       final_transcript parsed alternative transcript_text →
       handleMessage JSON_parse data now s
         = ((getSpeakerLabel (Some (first_speaker alternative)) s).2,
            [transcript_event alternative transcript_text now s]))
  ∧ (∀ parsed,
       JSON_parse data = Some parsed → type parsed = Some "Metadata" →
       handleMessage JSON_parse data now s = (s, []))
  ∧ (∀ parsed,
       JSON_parse data = Some parsed → is_final parsed ≠ Some true →
       handleMessage JSON_parse data now s = (s, []))
  ∧ (∀ parsed alternative,
       JSON_parse data = Some parsed →
       (channel parsed ≫= alternatives) ≫= head = Some alternative →
       transcript alternative = None ∨ transcript alternative = Some "" →
       handleMessage JSON_parse data now s = (s, [])).
Proof.
  split_and!.
  - destruct (final_transcript_cases JSON_parse data)
      as [(parsed & alternative & transcript_text & Hparse & Hfinal)|Hnot].
    + rewrite (handleMessage_final _ _ _ _ _ _ _ Hparse Hfinal). split; [|done].
      intros _. by exists parsed, alternative, transcript_text.
    + rewrite (handleMessage_silent _ _ _ _ Hnot). split; [done|].
      intros (parsed & alternative & transcript_text & Hparse & Hfinal).
      by destruct (Hnot _ _ _ Hparse Hfinal).
  - intros parsed alternative transcript_text. apply handleMessage_final.
  - intros parsed Hparse Hmeta. apply handleMessage_silent.
    intros ? ? ? Hparse' (Htype & _). congruence.
  - intros parsed Hparse Hfinal. apply handleMessage_silent.
    intros ? ? ? Hparse' (_ & _ & _ & _ & Hfinal'). congruence.
  - intros parsed alternative Hparse Halt Hempty. apply handleMessage_silent.
    intros p a t Hparse' (_ & Halt' & Htext & Hne & _).
    assert (a = alternative) as -> by congruence.
    destruct Hempty as [Hempty|Hempty]; congruence.
Qed.

Lemma final_message_final alternative transcript_text :
  transcript alternative = Some transcript_text →
  transcript_text ≠ "" →
  final_transcript (final_message alternative) alternative transcript_text.
Proof. intros Htext Hne. by split_and!. Defined.

(** The specification's example: the event carries "Speaker A" and the
    raw id 1. *)
Lemma handleMessage_emits_witness :
  parses_to (final_message hello) "payload" = Some (final_message hello) ∧
  final_transcript (final_message hello) hello "hello" ∧
  handleMessage (parses_to (final_message hello)) "payload" 1700 (constructor "key")
    = (set_speakerMap {[ Some 1%Z := "Speaker A" ]} (constructor "key"),
       [Emit "transcript" (Transcript
          {| TranscriptEvent.text := "hello";
             TranscriptEvent.speaker := "Speaker A";
             TranscriptEvent.speakerId := 1;
             TranscriptEvent.confidence := Some (QArith_base.Qmake 9 10);
             TranscriptEvent.timestamp := 1700;
             TranscriptEvent.is_final := true |})]).
Proof.
  split; [reflexivity|].
  assert (Hfinal : final_transcript (final_message hello) hello "hello").
  { apply final_message_final; [reflexivity|discriminate]. }
  split; [exact Hfinal|].
  exact (proj1 (proj2 (handleMessage_emits (parses_to (final_message hello))
                         "payload" 1700 (constructor "key")))
           (final_message hello) hello "hello" eq_refl Hfinal).
Defined.

(** ** Words without a speaker field *)

Lemma speaker_of_filled w : speaker_of (speaker_filled w) = speaker_of w.
Proof. reflexivity. Qed.

Lemma word_text_filled w : word_text (speaker_filled w) = word_text w.
Proof. reflexivity. Qed.

Lemma segments_filled (ws : list Word) :
  segments (speaker_filled <$> ws)
    = (λ seg : Z * list Word, (seg.1, speaker_filled <$> seg.2)) <$> segments ws.
Proof.
  induction ws as [|w ws IH]; [done|].
  rewrite fmap_cons, !segments_cons, IH, speaker_of_filled.
  destruct (segments ws) as [|[id group] more]; [done|]. csimpl.
  by case_bool_decide.
Qed.

Lemma lines_from_filled segs s :
  lines_from ((λ seg : Z * list Word, (seg.1, speaker_filled <$> seg.2)) <$> segs) s
    = lines_from segs s.
Proof.
  revert s. induction segs as [|[id group] more IH]; intros s; [done|]. csimpl.
  destruct (getSpeakerLabel (Some id) s) as [label s1]. rewrite IH.
  rewrite <-list_fmap_compose.
  by rewrite (list_fmap_ext (word_text ∘ speaker_filled) word_text group).
Qed.

Lemma segments_missing_speaker ws :
  Forall (λ seg, Forall (λ w, speaker w = None → seg.1 = 0%Z) seg.2) (segments ws).
Proof.
  eapply Forall_impl; [apply segments_uniform|].
  intros [id group] [_ Hgroup]. cbn in *.
  eapply Forall_impl; [exact Hgroup|].
  intros w <- Hnone. unfold speaker_of. by rewrite Hnone.
Qed.

Lemma segmented_transcript_filled (ws : list Word) :
  segmented_transcript punctuated_if_nonempty (speaker_filled <$> ws)
    = segmented_transcript punctuated_if_nonempty ws.
Proof.
  unfold segmented_transcript. cbv zeta. rewrite segments_filled.
  generalize (segments ws). intros segs. do 2 f_equal.
  - f_equal. rewrite <-list_fmap_compose. by apply list_fmap_ext.
  - rewrite <-!list_fmap_compose. apply list_fmap_ext. intros _ [id group] _.
    cbn. unfold texts. rewrite <-list_fmap_compose. by apply list_fmap_ext.
Qed.

(** The result of the segmentation branch, as the transcript of the
    specification. *)
Lemma transcribeRecording_transcript res s data alternative ws :
  ok res = true →
  json res = Some data →
  first_alternative data = Some alternative →
  words alternative = Some ws →
  ws ≠ [] →
  (transcribeRecording res s).1
    = inr (segmented_transcript punctuated_if_nonempty ws).
Proof.
  intros Hok Hjson Halt Hwords Hne.
  rewrite (transcribeRecording_words _ _ _ _ _ Hok Hjson Halt Hwords Hne).
  cbn [fst]. rewrite lines_from_first_seen by done.
  f_equal. apply (segmented_transcript_ext word_text), word_text_nonempty.
Qed.

(** C10. A word without a speaker field counts as a word of speaker 0.
    Batch: the transcript the code returns for a word list is the
    transcript of the specification for the list in which every missing
    speaker is written as 0; when every word either has no speaker field
    or has speaker 0, it is the single line of "Speaker A"; the call
    gives the same result and session as on a response whose words carry
    the ids written out; and in the segmentation every word without the
    field lies in a segment of speaker 0. Streaming: a final transcript
    whose first word has no speaker field is emitted with speaker id 0 and
    the label the allocator gives to 0, although the word list is not
    empty. *)
Theorem missing_speaker_is_zero :
  (∀ res data alternative ws s,
     ok res = true → json res = Some data →
     first_alternative data = Some alternative →
     words alternative = Some ws →
     ws ≠ [] →
     (transcribeRecording res s).1
       = inr (segmented_transcript punctuated_if_nonempty (speaker_filled <$> ws))
     ∧ (Forall (λ w, speaker w = None ∨ speaker w = Some 0%Z) ws →
          (transcribeRecording res s).1
            = inr ("Speaker A: "
                   +:+ String.concat " " (punctuated_if_nonempty <$> ws))))
  ∧ (∀ w,
       (speaker w = None →
          speaker_filled w
            = {| word := word w; punctuated_word := punctuated_word w;
                 speaker := Some 0%Z |})
       ∧ (∀ id, speaker w = Some id → speaker_filled w = w))
  ∧ (∀ res res' data data' alternative alternative' ws s,
       ok res = true → json res = Some data →
       first_alternative data = Some alternative →
       words alternative = Some ws →
       ok res' = true → json res' = Some data' →
       first_alternative data' = Some alternative' →
       words alternative' = Some (speaker_filled <$> ws) →
       ws ≠ [] →
       transcribeRecording res s = transcribeRecording res' s)
  ∧ (∀ ws,
       Forall (λ seg, Forall (λ w, speaker w = None → seg.1 = 0%Z) seg.2)
              (segments ws))
  ∧ (∀ JSON_parse data now s parsed alternative transcript_text w rest,
       JSON_parse data = Some parsed →
       final_transcript parsed alternative transcript_text →
       words alternative = Some (w :: rest) →
       speaker w = None →
       handleMessage JSON_parse data now s
         = ((getSpeakerLabel (Some 0%Z) s).2,
            [Emit "transcript" (Transcript
               {| TranscriptEvent.text := transcript_text;
                  TranscriptEvent.speaker := (getSpeakerLabel (Some 0%Z) s).1;
                  TranscriptEvent.speakerId := 0;
                  TranscriptEvent.confidence := confidence alternative;
                  TranscriptEvent.timestamp := now;
                  TranscriptEvent.is_final := true |})])).
Proof.
  split_and!.
  - intros res data alternative ws s Hok Hjson Halt Hwords Hne. split.
    + rewrite segmented_transcript_filled.
      by apply (transcribeRecording_transcript _ _ data alternative).
    + intros Hzero.
      assert (Hrun : Forall (λ w, speaker_of w = 0%Z) ws).
      { eapply Forall_impl; [exact Hzero|].
        intros w [Hw|Hw]; unfold speaker_of; by rewrite Hw. }
      rewrite (transcribeRecording_words _ _ _ _ _ Hok Hjson Halt Hwords Hne).
      cbn [fst]. rewrite <-(app_nil_r ws) at 1.
      rewrite (segments_run_app 0%Z ws []) by done.
      rewrite <-(list_fmap_ext word_text punctuated_if_nonempty ws)
        by (intros; apply word_text_nonempty).
      reflexivity.
  - intros w. split.
    + intros Hnone. unfold speaker_filled, speaker_of. by rewrite Hnone.
    + intros id Hid. destruct w as [text punctuated sp]. cbn in *.
      unfold speaker_filled, speaker_of. cbn. by rewrite Hid.
  - intros res res' data data' alternative alternative' ws s
      Hok Hjson Halt Hwords Hok' Hjson' Halt' Hwords' Hne.
    rewrite (transcribeRecording_words _ _ _ _ _ Hok Hjson Halt Hwords Hne).
    rewrite (transcribeRecording_words _ _ _ _ _ Hok' Hjson' Halt' Hwords').
    + by rewrite segments_filled, lines_from_filled.
    + by destruct ws.
  - apply segments_missing_speaker.
  - intros JSON_parse data now s parsed alternative transcript_text w rest
      Hparse Hfinal Hwords Hnone.
    rewrite (handleMessage_final _ _ _ _ _ _ _ Hparse Hfinal).
    unfold transcript_event, first_speaker, speaker_of. by rewrite Hwords, Hnone.
Qed.

(** A first word without speaker field, followed by a word of speaker 2.
    Streaming: the event carries id 0 and "Speaker A". Batch: the first
    word is the segment of "Speaker A", the speaker of id 0, and the call
    returns what it returns when the first word says speaker 0. *)
Lemma missing_speaker_is_zero_witness :
  final_transcript (final_message hello_unattributed) hello_unattributed "hello" ∧
  handleMessage (parses_to (final_message hello_unattributed)) "payload" 1700
      (constructor "key")
    = (set_speakerMap {[ Some 0%Z := "Speaker A" ]} (constructor "key"),
       [Emit "transcript" (Transcript
          {| TranscriptEvent.text := "hello";
             TranscriptEvent.speaker := "Speaker A";
             TranscriptEvent.speakerId := 0;
             TranscriptEvent.confidence := Some (QArith_base.Qmake 9 10);
             TranscriptEvent.timestamp := 1700;
             TranscriptEvent.is_final := true |})]) ∧
  (transcribeRecording (response_with hello_unattributed) (constructor "key")).1
    = inr ("Speaker A: hello" +:+ newline +:+ "Speaker B: there") ∧
  transcribeRecording (response_with hello_unattributed) (constructor "key")
    = transcribeRecording (batch_response [said "hello" 0; said "there" 2])
        (constructor "key").
Proof.
  assert (Hfinal : final_transcript (final_message hello_unattributed)
                     hello_unattributed "hello").
  { apply final_message_final; [reflexivity|discriminate]. }
  split; [exact Hfinal|]. split; [|split].
  - exact (proj2 (proj2 (proj2 (proj2 missing_speaker_is_zero)))
             (parses_to (final_message hello_unattributed)) "payload" 1700%Z
             (constructor "key") (final_message hello_unattributed) hello_unattributed
             "hello" _ _ eq_refl Hfinal eq_refl eq_refl).
  - refine (proj1 (proj1 missing_speaker_is_zero
                     (response_with hello_unattributed) _ hello_unattributed _
                     (constructor "key") eq_refl eq_refl eq_refl eq_refl _)).
    discriminate.
  - refine (proj1 (proj2 (proj2 missing_speaker_is_zero))
              (response_with hello_unattributed)
              (batch_response [said "hello" 0; said "there" 2])
              _ _ hello_unattributed _ _ (constructor "key")
              eq_refl eq_refl eq_refl eq_refl eq_refl eq_refl eq_refl eq_refl _).
    discriminate.
Defined.

(** ** Reconnection *)

Section Reconnection.

Variable JSON_parse : string → option StreamMessage.

Lemma getSpeakerLabel_frame speakerId s :
  ∃ m, (getSpeakerLabel speakerId s).2 = set_speakerMap m s.
Proof.
  unfold getSpeakerLabel. destruct (truthy (speakerMap s !! speakerId)).
  - exists (speakerMap s). by rewrite set_speakerMap_same.
  - by eexists.
Qed.

Lemma handleMessage_frame data now s :
  ∃ m, (handleMessage JSON_parse data now s).1 = set_speakerMap m s.
Proof.
  destruct (final_transcript_cases JSON_parse data)
    as [(parsed & alternative & transcript_text & Hparse & Hfinal)|Hnot].
  - rewrite (handleMessage_final _ _ _ _ _ _ _ Hparse Hfinal).
    apply getSpeakerLabel_frame.
  - rewrite (handleMessage_silent _ _ _ _ Hnot).
    exists (speakerMap s). by rewrite set_speakerMap_same.
Qed.

Lemma onclose_unfold code s :
  onclose code s =
    if negb (code =? 1000) && (reconnectAttempts s <? maxReconnectAttempts s)
    then (set_reconnectAttempts (reconnectAttempts s + 1) (set_isConnected false s),
          [SetTimeout (2000 * (reconnectAttempts s + 1))])
    else (set_isConnected false s, []).
Proof. reflexivity. Qed.

(** What a step leaves untouched, event by event. *)
Ltac step_cases e s :=
  destruct e as [handle| |event callback|audioBuffer open|res
                | |data now|error|code|handle];
  cbn [step fst is_abnormal_close is_open andb] in *;
  [ | rewrite close_session
    | | | destruct (transcribeRecording_frame res s) as [m ->]
    | | destruct (handleMessage_frame data now s) as [m ->]
    | | rewrite onclose_unfold;
        destruct (negb (code =? 1000)
                  && (reconnectAttempts s <? maxReconnectAttempts s))
    | ].

(** Only [onopen] and [attemptReconnect] write the counter. *)
Lemma step_reconnectAttempts s e :
  is_open e = false →
  reconnectAttempts (step JSON_parse s e).1 =
    if is_abnormal_close e && (reconnectAttempts s <? maxReconnectAttempts s)
    then reconnectAttempts s + 1
    else reconnectAttempts s.
Proof. intros Hopen. step_cases e s; done. Qed.

(** No handler and no method writes the ceiling. *)
Lemma step_maxReconnectAttempts s e :
  maxReconnectAttempts (step JSON_parse s e).1 = maxReconnectAttempts s.
Proof. step_cases e s; done. Qed.

Lemma step_isConnected s e :
  is_open e = false →
  isConnected s = false ∨ is_abnormal_close e = true →
  isConnected (step JSON_parse s e).1 = false.
Proof. intros Hopen Hcases. step_cases e s; try done; by destruct Hcases. Qed.

Lemma run_maxReconnectAttempts events s :
  maxReconnectAttempts (run JSON_parse s events) = maxReconnectAttempts s.
Proof.
  revert s. induction events as [|e events IH]; intros s; [done|].
  cbn. unfold run in IH. by rewrite IH, step_maxReconnectAttempts.
Qed.

Lemma run_app s events events' :
  run JSON_parse s (events ++ events') = run JSON_parse (run JSON_parse s events) events'.
Proof. apply foldl_app. Qed.

(** Without an open in between, every abnormal closure below the ceiling
    counts. *)
Lemma run_reconnectAttempts events s :
  Forall (λ e, is_open e = false) events →
  reconnectAttempts s ≤ maxReconnectAttempts s →
  reconnectAttempts (run JSON_parse s events)
    = (reconnectAttempts s + abnormal_closes events) `min` maxReconnectAttempts s.
Proof.
  revert s. induction events as [|e events IH]; intros s Hopen Hle.
  - cbn. unfold abnormal_closes. cbn. lia.
  - apply Forall_cons in Hopen as [He Hopen].
    change (run JSON_parse s (e :: events))
      with (run JSON_parse (step JSON_parse s e).1 events).
    pose proof (step_reconnectAttempts s e He) as Hstep.
    pose proof (step_maxReconnectAttempts s e) as Hmax.
    rewrite IH, Hmax, Hstep; [|done|rewrite Hmax, Hstep].
    + unfold abnormal_closes. rewrite filter_cons.
      destruct (is_abnormal_close e); cbn [andb].
      * rewrite decide_True by done. cbn [length].
        destruct (Nat.ltb_spec (reconnectAttempts s) (maxReconnectAttempts s)); lia.
      * rewrite decide_False by done. lia.
    + destruct (is_abnormal_close e); cbn [andb]; [|done].
      destruct (Nat.ltb_spec (reconnectAttempts s) (maxReconnectAttempts s)); lia.
Qed.

Lemma run_isConnected events s :
  Forall (λ e, is_open e = false) events →
  isConnected s = false ∨ 0 < abnormal_closes events →
  isConnected (run JSON_parse s events) = false.
Proof.
  revert s. induction events as [|e events IH]; intros s Hopen Hcases.
  - destruct Hcases as [?|Hpos]; [done|]. unfold abnormal_closes in Hpos. cbn in Hpos. lia.
  - apply Forall_cons in Hopen as [He Hopen].
    change (run JSON_parse s (e :: events))
      with (run JSON_parse (step JSON_parse s e).1 events).
    apply IH; [done|].
    unfold abnormal_closes in *. rewrite filter_cons in Hcases.
    destruct (is_abnormal_close e) eqn:Hab.
    + left. apply step_isConnected; auto.
    + rewrite decide_False in Hcases by done.
      destruct Hcases as [Hs|Hpos]; [|by right].
      left. apply step_isConnected; auto.
Qed.

Lemma run_constructor_invariant key history :
  maxReconnectAttempts (run JSON_parse (constructor key) history) = 3
  ∧ reconnectAttempts (run JSON_parse (constructor key) history) ≤ 3.
Proof.
  split; [by rewrite run_maxReconnectAttempts|].
  induction history as [|e history IH] using rev_ind; [cbn; lia|].
  rewrite run_app. cbn.
  set (s := run JSON_parse (constructor key) history) in *.
  assert (Hmax : maxReconnectAttempts s = 3) by apply run_maxReconnectAttempts.
  destruct (is_open e) eqn:Hopen.
  - destruct e; try done. cbn. lia.
  - rewrite step_reconnectAttempts, Hmax by done.
    destruct (is_abnormal_close e); cbn [andb]; [|done].
    destruct (Nat.ltb_spec (reconnectAttempts s) 3); lia.
Qed.

End Reconnection.

Lemma set_isConnected_same s : set_isConnected (isConnected s) s = s.
Proof. by destruct s. Qed.

Lemma abnormal_closes_cons e events :
  abnormal_closes (e :: events)
    = (if is_abnormal_close e then 1 else 0) + abnormal_closes events.
Proof.
  unfold abnormal_closes. rewrite filter_cons.
  destruct (is_abnormal_close e).
  - by rewrite decide_True.
  - by rewrite decide_False.
Qed.

(** C5. In a session reached from the constructor by any history of calls
    and socket events: an abnormal closure (a code other than 1000) below
    the ceiling of 3 sets the status to disconnected, increments the
    counter and then arms one timer whose delay is 2000 ms times the
    incremented counter; and after events that contain at least 3 abnormal
    closures and no successful open, three closures in a row in
    particular, the status is disconnected and a further abnormal closure
    arms no timer and changes nothing. *)
Theorem reconnection_policy JSON_parse key history :
  let s := run JSON_parse (constructor key) history in
  (∀ code,
     code ≠ 1000 → reconnectAttempts s < 3 →
     onclose code s
       = (set_reconnectAttempts (reconnectAttempts s + 1) (set_isConnected false s),
          [SetTimeout (2000 * (reconnectAttempts s + 1))]))
  ∧ (∀ events code,
       Forall (λ e, is_open e = false) events →
       3 ≤ abnormal_closes events →
       code ≠ 1000 →
       isConnected (run JSON_parse s events) = false
       ∧ onclose code (run JSON_parse s events) = (run JSON_parse s events, []))
  ∧ (∀ c1 c2 c3 c4,
       c1 ≠ 1000 → c2 ≠ 1000 → c3 ≠ 1000 → c4 ≠ 1000 →
       isConnected (run JSON_parse s [SocketClose c1; SocketClose c2; SocketClose c3])
         = false
       ∧ onclose c4 (run JSON_parse s [SocketClose c1; SocketClose c2; SocketClose c3])
         = (run JSON_parse s [SocketClose c1; SocketClose c2; SocketClose c3], [])).
Proof.
  intros s.
  destruct (run_constructor_invariant JSON_parse key history) as [Hmax Hle].
  fold s in Hmax, Hle.
  assert (Hgeneral : ∀ events code,
            Forall (λ e, is_open e = false) events →
            3 ≤ abnormal_closes events →
            code ≠ 1000 →
            isConnected (run JSON_parse s events) = false
            ∧ onclose code (run JSON_parse s events) = (run JSON_parse s events, [])).
  { intros events code Hopen Hcount Hcode.
    assert (Hoff : isConnected (run JSON_parse s events) = false).
    { apply run_isConnected; [done|]. right. lia. }
    split; [done|].
    rewrite onclose_unfold, run_maxReconnectAttempts, Hmax.
    rewrite run_reconnectAttempts, Hmax by (done || lia).
    rewrite (proj2 (Nat.ltb_ge _ _)) by lia.
    by rewrite andb_false_r, <-Hoff, set_isConnected_same. }
  split_and!.
  - intros code Hcode Hbelow. rewrite onclose_unfold, Hmax.
    rewrite (proj2 (Nat.eqb_neq _ _) Hcode), (proj2 (Nat.ltb_lt _ _) Hbelow). done.
  - exact Hgeneral.
  - intros c1 c2 c3 c4 H1 H2 H3 H4. apply Hgeneral; [by repeat constructor| |done].
    rewrite !abnormal_closes_cons. cbn [is_abnormal_close].
    rewrite (proj2 (Nat.eqb_neq _ _) H1), (proj2 (Nat.eqb_neq _ _) H2),
      (proj2 (Nat.eqb_neq _ _) H3).
    cbn [negb]. lia.
Qed.

(** An open in between resets the counter: the closure that follows
    three abnormal closures and an open arms a timer again. *)
Example reconnection_after_open :
  (onclose 1006
     (run (parses_to (final_message hello)) (constructor "key")
        [SocketClose 1006; SocketClose 1006; SocketClose 1006;
         TimerFires 4; SocketOpen])).2
  = [SetTimeout 2000].
Proof. reflexivity. Qed.

(** A session that connected, opened and lost its socket: the first
    abnormal closure arms a timer of 2000 ms; after three closures with
    code 1006 in a row, with the timers firing in between, a fourth arms
    none. *)
Lemma reconnection_policy_witness :
  onclose 1006 (run (parses_to (final_message hello)) (constructor "key")
                  [CallConnect 1; SocketOpen])
    = (set_reconnectAttempts 1
         (set_isConnected false
            (run (parses_to (final_message hello)) (constructor "key")
               [CallConnect 1; SocketOpen])),
       [SetTimeout 2000])
  ∧ (onclose 1006
       (run (parses_to (final_message hello)) (constructor "key")
          [CallConnect 1; SocketOpen;
           SocketClose 1006; TimerFires 2; SocketError "refused";
           SocketClose 1006; TimerFires 3; SocketError "refused";
           SocketClose 1006])).2 = [].
Proof.
  split.
  - refine (proj1 (reconnection_policy (parses_to (final_message hello)) "key"
                     [CallConnect 1; SocketOpen]) 1006 _ _).
    + discriminate.
    + cbn. lia.
  - refine (f_equal snd (proj2 (proj1 (proj2 (reconnection_policy
              (parses_to (final_message hello)) "key" [CallConnect 1; SocketOpen]))
              [SocketClose 1006; TimerFires 2; SocketError "refused";
               SocketClose 1006; TimerFires 3; SocketError "refused";
               SocketClose 1006] 1006 _ _ _))).
    + by repeat constructor.
    + vm_compute. lia.
    + discriminate.
Defined.

(** * Further properties of the session *)

(** ** The event emitter *)

Lemma forEach_snoc throws data callbacks callback :
  forEach throws data (callbacks ++ [callback])
    = if (forEach throws data callbacks).2 then forEach throws data callbacks
      else ((forEach throws data callbacks).1 ++ [(callback, data)],
            throws callback data).
Proof.
  induction callbacks as [|first callbacks IH]; cbn [app forEach].
  - by destruct (throws callback data).
  - destruct (throws first data); [done|]. rewrite IH.
    destruct (forEach throws data callbacks) as [calls [|]]; done.
Qed.


(** X1. For event names that are not inherited property names,
    registering [callback] for [event'] changes nothing for the other
    events, and for [event'] puts [callback] last: [emit] makes the calls
    it made before and then, unless one of them threw, calls [callback];
    when an earlier callback throws, the new one is not called. *)
Theorem emit_after_on throws event event' callback data s :
  plain_name event → plain_name event' →
  emit throws event data (on event' callback s)
    = if decide (event = event') then
        if (emit throws event data s).2 then emit throws event data s
        else ((emit throws event data s).1 ++ [(callback, data)],
              throws callback data)
      else emit throws event data s.
Proof.
  intros _ _. unfold emit, on. cbn [listeners set_listeners].
  destruct (decide (event = event')) as [-> |Hne].
  - rewrite lookup_insert_eq.
    destruct (listeners s !! event') as [registered|]; cbn [default].
    + apply forEach_snoc.
    + cbn. by destruct (throws callback data).
  - by rewrite lookup_insert_ne.
Qed.

(** Callback 2 throws: registered after 1 it is called, and 3, registered
    after it, is not. *)
Lemma emit_after_on_witness :
  plain_name "transcript" ∧
  emit (λ callback _, callback =? 2) "transcript" (SocketFailure "x")
    (on "transcript" 3 (on "transcript" 2 (on "error" 9
       (on "transcript" 1 (constructor "key")))))
  = ([(1, SocketFailure "x"); (2, SocketFailure "x")], true).
Proof.
  assert (Hplain : plain_name "transcript").
  { apply (bool_decide_unpack (plain_name "transcript")). exact I. }
  split; [exact Hplain|].
  rewrite (emit_after_on (λ callback _, callback =? 2) "transcript" "transcript" 3
             (SocketFailure "x")
             (on "transcript" 2 (on "error" 9 (on "transcript" 1 (constructor "key"))))
             Hplain Hplain).
  reflexivity.
Defined.

(** ** What each event leaves untouched *)

Section MachineFacts.

Variable JSON_parse : string → option StreamMessage.

Lemma onclose_frame code s :
  ∃ attempts, (onclose code s).1
              = set_reconnectAttempts attempts (set_isConnected false s).
Proof.
  unfold onclose, attemptReconnect. cbv zeta.
  destruct (negb (code =? 1000) && _); cbn [fst]; [by eexists|].
  exists (reconnectAttempts s). by destruct s.
Qed.

(** The cases of a step, with the session of each case in a form that
    shows the fields written. *)
Ltac by_event e s :=
  destruct e as [handle| |event callback|audioBuffer open|res
                | |data now|error|code|handle];
  cbn [step fst snd] in *;
  [ | rewrite ?close_session
    | | | destruct (transcribeRecording_frame res s) as [m ->]
    | | destruct (handleMessage_frame JSON_parse data now s) as [m ->]
    | | destruct (onclose_frame code s) as [attempts ->]
    | ].

Lemma step_apiKey s e : apiKey (step JSON_parse s e).1 = apiKey s.
Proof. by_event e s; done. Qed.


Lemma step_status s e :
  isConnected (step JSON_parse s e).1 = connected_after (isConnected s) [e].
Proof. by_event e s; done. Qed.

Lemma run_cons s e events :
  run JSON_parse s (e :: events) = run JSON_parse (step JSON_parse s e).1 events.
Proof. reflexivity. Qed.

Lemma run_snoc s events e :
  run JSON_parse s (events ++ [e]) = (step JSON_parse (run JSON_parse s events) e).1.
Proof. unfold run. by rewrite foldl_app. Qed.





(** X3. The status is true exactly when the last of the events that
    assign it (a socket open, a socket close, [close()]) is an open:
    [connect()], a socket error, a message, a timer and the batch call
    leave it as it is. *)
Theorem isConnected_tracks events s :
  isConnected (run JSON_parse s events) = connected_after (isConnected s) events.
Proof.
  revert s. induction events as [|e events IH]; intros s; [done|].
  rewrite run_cons, IH, step_status. reflexivity.
Qed.

(** X4. In every session reached from the constructor the credential is
    the one given to the constructor, the ceiling is 3 and the attempt
    counter is at most 3. *)
Theorem session_invariants key history :
  apiKey (run JSON_parse (constructor key) history) = key
  ∧ maxReconnectAttempts (run JSON_parse (constructor key) history) = 3
  ∧ reconnectAttempts (run JSON_parse (constructor key) history) ≤ 3.
Proof.
  split; [|apply run_constructor_invariant].
  induction history as [|e history IH] using rev_ind; [done|].
  by rewrite run_snoc, step_apiKey.
Qed.

End MachineFacts.


(** ** [sendAudio] and [close()] *)

(** X5. [sendAudio] transmits the buffer exactly when there is a socket
    and it is open; in every other case it only warns. After [close()]
    it cannot transmit, whatever the state reported for the old socket. *)
Theorem sendAudio_sends audioBuffer open s :
  (∀ handle,
     sendAudio audioBuffer open s = [WebSocketSend handle audioBuffer]
     ↔ socket s = Some handle ∧ open = true)
  ∧ ((socket s = None ∨ open = false) →
       sendAudio audioBuffer open s = [Warn "Cannot send audio: WebSocket not connected"])
  ∧ sendAudio audioBuffer open (close s).1
      = [Warn "Cannot send audio: WebSocket not connected"].
Proof.
  split_and!.
  - intros handle. unfold sendAudio.
    destruct (socket s) as [h|], open; split; try done.
    + by intros [= ->].
    + by intros [[= ->] _].
    + by intros [_ ?].
    + by intros [? _].
    + by intros [? _].
  - unfold sendAudio. intros [-> | ->]; [done|]. by destruct (socket s).
  - unfold sendAudio. by rewrite close_session.
Qed.

(** A session with a socket that is not open yet. *)
Lemma sendAudio_sends_witness :
  (socket (connect 7 (constructor "key")) = None ∨ false = false) ∧
  sendAudio [1; 2; 3] false (connect 7 (constructor "key"))
    = [Warn "Cannot send audio: WebSocket not connected"].
Proof.
  split; [by right|].
  apply (proj1 (proj2 (sendAudio_sends [1; 2; 3] false (connect 7 (constructor "key"))))).
  by right.
Defined.

(** X6. [close()] is idempotent: a second [close()] changes nothing and
    sends no close frame. *)
Theorem close_idempotent s : close (close s).1 = ((close s).1, []).
Proof. unfold close at 1. by rewrite close_session. Qed.

(** ** The timers of the reconnection policy *)

Section Timers.

Variable JSON_parse : string → option StreamMessage.

Lemma timers_app effects effects' :
  timers (effects ++ effects') = timers effects ++ timers effects'.
Proof. apply omap_app. Qed.

(** Only an abnormal closure below the ceiling arms a timer. *)
Lemma step_timers s e :
  timers (step JSON_parse s e).2 =
    if is_abnormal_close e && (reconnectAttempts s <? maxReconnectAttempts s)
    then [2000 * (reconnectAttempts s + 1)]
    else [].
Proof.
  destruct e as [handle| |event callback|audioBuffer open|res
                | |data now|error|code|handle];
    cbn [step snd is_abnormal_close andb]; try done.
  - unfold close. by destruct (socket s).
  - unfold sendAudio. by destruct (socket s), open.
  - destruct (final_transcript_cases JSON_parse data)
      as [(parsed & alternative & transcript_text & Hparse & Hfinal)|Hnot].
    + by rewrite (handleMessage_final _ _ now s _ _ _ Hparse Hfinal).
    + by rewrite (handleMessage_silent _ _ now s Hnot).
  - rewrite onclose_unfold.
    by destruct (negb (code =? 1000) && (reconnectAttempts s <? maxReconnectAttempts s)).
Qed.

Lemma trace_timers events s :
  maxReconnectAttempts s = 3 →
  reconnectAttempts s ≤ 3 →
  Forall (λ e, is_open e = false) events →
  timers (trace JSON_parse s events)
    = (λ attempt, 2000 * attempt)
        <$> seq (reconnectAttempts s + 1)
                (abnormal_closes events `min` (3 - reconnectAttempts s)).
Proof.
  revert s. induction events as [|e events IH]; intros s Hmax Hle Hopen.
  - done.
  - apply Forall_cons in Hopen as [He Hopen].
    cbn [trace]. rewrite timers_app, step_timers, abnormal_closes_cons.
    pose proof (step_reconnectAttempts JSON_parse s e He) as Hstep.
    pose proof (step_maxReconnectAttempts JSON_parse s e) as Hmax'.
    rewrite Hmax in *.
    destruct (is_abnormal_close e); cbn [andb] in *.
    + destruct (Nat.ltb_spec (reconnectAttempts s) 3) as [Hlt|Hge].
      * rewrite IH, Hstep by (done || lia).
        replace ((1 + abnormal_closes events) `min` (3 - reconnectAttempts s))
          with (S (abnormal_closes events `min` (3 - (reconnectAttempts s + 1))))
          by lia.
        cbn [seq fmap list_fmap app]. do 3 f_equal. lia.
      * rewrite IH, Hstep by (done || lia).
        replace (3 - reconnectAttempts s) with 0 by lia.
        by rewrite !Nat.min_0_r.
    + rewrite IH, Hstep by (done || lia). done.
Qed.

(** X7. In a session reached from the constructor, with [n] attempts
    counted, the timers armed by events without a successful open are
    those of the attempts [n+1], [n+2], ... up to 3, one per abnormal
    closure and in this order, each of 2000 ms times its attempt number:
    after an open, 2000, 4000 and 6000 ms and then none. Nothing but an
    abnormal closure arms a timer. *)
Theorem reconnection_timers key history events :
  Forall (λ e, is_open e = false) events →
  timers (trace JSON_parse (run JSON_parse (constructor key) history) events)
    = (λ attempt, 2000 * attempt)
        <$> seq (reconnectAttempts (run JSON_parse (constructor key) history) + 1)
                (abnormal_closes events
                 `min` (3 - reconnectAttempts (run JSON_parse (constructor key) history))).
Proof.
  intros Hopen.
  destruct (run_constructor_invariant JSON_parse key history) as [Hmax Hle].
  by apply trace_timers.
Qed.

End Timers.

(** Five closures after an open, the third one normal, with errors and
    timers in between: three timers. *)
Lemma reconnection_timers_witness :
  Forall (λ e, is_open e = false)
    [SocketClose 1006; TimerFires 2; SocketError "refused"; SocketClose 1006;
     SocketClose 1000; SocketClose 1011; SocketClose 1006] ∧
  timers (trace (parses_to (final_message hello))
            (run (parses_to (final_message hello)) (constructor "key")
               [CallConnect 1; SocketOpen])
            [SocketClose 1006; TimerFires 2; SocketError "refused"; SocketClose 1006;
             SocketClose 1000; SocketClose 1011; SocketClose 1006])
  = [2000 * 1; 2000 * 2; 2000 * 3].
Proof.
  assert (Hopen : Forall (λ e, is_open e = false)
            [SocketClose 1006; TimerFires 2; SocketError "refused"; SocketClose 1006;
             SocketClose 1000; SocketClose 1011; SocketClose 1006]).
  { by repeat constructor. }
  split; [exact Hopen|].
  exact (reconnection_timers (parses_to (final_message hello)) "key"
           [CallConnect 1; SocketOpen] _ Hopen).
Defined.

(** ** Labels over a session *)

(** A decimal numeral does not start with a letter. *)
Lemma pretty_N_go_head (c : Ascii.ascii) x s s' :
  (∀ d, pretty_N_char d ≠ c) →
  s ≠ String c s' → pretty_N_go x s ≠ String c s'.
Proof.
  intros Hc. revert s. induction (N.lt_wf_0 x) as [x _ IH]; intros s Hs.
  assert (x = 0 ∨ 0 < x)%N as [-> |Hpos] by lia.
  - by rewrite pretty_N_go_0.
  - rewrite pretty_N_go_step by done. apply IH.
    + by apply N.div_lt.
    + intros [= Hd _]. by apply (Hc (x `mod` 10)%N).
Qed.

Lemma pretty_nat_head (c : Ascii.ascii) (n : nat) s' :
  (∀ d, pretty_N_char d ≠ c) → pretty n ≠ String c s'.
Proof.
  intros Hc. unfold pretty, pretty_nat, pretty, pretty_N.
  case_decide.
  - intros [= Hd _]. by apply (Hc 0%N).
  - by apply pretty_N_go_head.
Qed.

Lemma letter_not_numeral index letter (n : nat) :
  labels !! index = Some letter → pretty n ≠ letter.
Proof.
  intros Hletter.
  assert (Hin : letter ∈ labels) by (by eapply list_elem_of_lookup_2).
  unfold labels in Hin.
  repeat (apply elem_of_cons in Hin as [-> |Hin];
          [apply pretty_nat_head; intros d;
           unfold pretty_N_char; by repeat case_match|]).
  by apply elem_of_nil in Hin.
Qed.

Lemma label_of_index_inj : Inj (=) (=) label_of_index.
Proof.
  intros i j Heq. unfold label_of_index in Heq.
  apply (inj (String.app "Speaker ")) in Heq.
  destruct (labels !! i) as [a|] eqn:Hi, (labels !! j) as [b|] eqn:Hj; cbn in Heq.
  - subst b. eapply NoDup_lookup; [|done..].
    apply (bool_decide_unpack _). by vm_compute.
  - symmetry in Heq. by destruct (letter_not_numeral i a j Hi).
  - by destruct (letter_not_numeral j b i Hj).
  - by apply (inj pretty).
Qed.

Lemma allocated_inj seen m id1 id2 label :
  allocated seen m → m !! id1 = Some label → m !! id2 = Some label → id1 = id2.
Proof.
  intros [Hnd Hm] H1 H2. rewrite Hm in H1, H2.
  destruct (decide (id1 ∈ seen)) as [Hin1|]; [|done].
  destruct (decide (id2 ∈ seen)) as [Hin2|]; [|done].
  assert (Heq : label_of_index (index_of id1 seen) = label_of_index (index_of id2 seen))
    by congruence.
  apply label_of_index_inj in Heq.
  apply index_of_lookup in Hin1, Hin2. rewrite Heq in Hin1. congruence.
Qed.

Lemma allocated_no_gap seen m k :
  allocated seen m → k < size m → ∃ id, m !! id = Some (label_of_index k).
Proof.
  intros Hal Hk. rewrite (allocated_size _ _ Hal) in Hk. destruct Hal as [Hnd Hm].
  destruct (lookup_lt_is_Some_2 seen k Hk) as [id Hid]. exists id.
  rewrite Hm, decide_True by (by eapply list_elem_of_lookup_2).
  by rewrite (lookup_index_of id seen k).
Qed.

Lemma getSpeakerLabel_keeps speakerId s id label :
  truthy (speakerMap s !! id) = Some label →
  speakerMap (getSpeakerLabel speakerId s).2 !! id = Some label.
Proof.
  intros Hlabel. pose proof Hlabel as [Hfound _]%truthy_Some.
  unfold getSpeakerLabel.
  destruct (truthy (speakerMap s !! speakerId)) as [known|] eqn:Hknown; [done|].
  cbn [snd speakerMap set_speakerMap]. rewrite lookup_insert_ne; [done|].
  intros ->. congruence.
Qed.

Section Labels.

Variable JSON_parse : string → option StreamMessage.

Lemma step_keeps_label s e id label :
  resets_labels e = false →
  truthy (speakerMap s !! id) = Some label →
  truthy (speakerMap (step JSON_parse s e).1 !! id) = Some label.
Proof.
  intros Hreset Hlabel.
  destruct e as [handle| |event callback|audioBuffer open|res
                | |data now|error|code|handle];
    cbn [step fst resets_labels] in *; try done.
  - apply bool_decide_eq_false in Hreset.
    rewrite transcribeRecording_untouched; [done|].
    by destruct (decide (word_list res = [])).
  - destruct (final_transcript_cases JSON_parse data)
      as [(parsed & alternative & transcript_text & Hparse & Hfinal)|Hnot].
    + rewrite (handleMessage_final _ _ now s _ _ _ Hparse Hfinal). cbn [fst].
      rewrite (getSpeakerLabel_keeps _ _ _ _ Hlabel).
      apply truthy_Some. by apply truthy_Some in Hlabel as [_ ?].
    + by rewrite (handleMessage_silent _ _ now s Hnot).
  - rewrite onclose_unfold.
    by destruct (negb (code =? 1000) && (reconnectAttempts s <? maxReconnectAttempts s)).
Qed.

(** X8. A label once given is kept: as long as neither [close()] nor a
    batch call on words intervenes, no message, closure, reconnection or
    other call changes the label of a speaker who has one. *)
Theorem label_kept events s id label :
  Forall (λ e, resets_labels e = false) events →
  truthy (speakerMap s !! id) = Some label →
  speakerMap (run JSON_parse s events) !! id = Some label.
Proof.
  intros Hevents Hlabel.
  enough (truthy (speakerMap (run JSON_parse s events) !! id) = Some label)
    as [? _]%truthy_Some by done.
  revert s Hlabel. induction Hevents as [|e events He Hevents IH]; intros s Hlabel.
  - done.
  - change (run JSON_parse s (e :: events))
      with (run JSON_parse (step JSON_parse s e).1 events).
    by apply IH, step_keeps_label.
Qed.

Lemma step_allocated s e seen :
  allocated seen (speakerMap s) →
  ∃ seen', allocated seen' (speakerMap (step JSON_parse s e).1).
Proof.
  intros Hal.
  destruct e as [handle| |event callback|audioBuffer open|res
                | |data now|error|code|handle];
    cbn [step fst]; try by exists seen.
  - exists []. rewrite close_session. apply allocated_empty.
  - destruct (decide (word_list res = [])) as [Hnone|Hsome].
    + exists seen. by rewrite transcribeRecording_untouched.
    + rewrite transcribeRecording_word_list by done. cbn [snd].
      rewrite lines_from_label_all. cbn [snd].
      destruct (label_all_allocated (Some <$> (segments (word_list res)).*1) []
                  (set_speakerMap ∅ s) allocated_empty) as (m & -> & Hm).
      by eexists.
  - destruct (final_transcript_cases JSON_parse data)
      as [(parsed & alternative & transcript_text & Hparse & Hfinal)|Hnot].
    + rewrite (handleMessage_final _ _ now s _ _ _ Hparse Hfinal). cbn [fst].
      destruct (getSpeakerLabel_allocated seen s (Some (first_speaker alternative)) Hal)
        as (m & -> & Hm).
      by eexists.
    + exists seen. by rewrite (handleMessage_silent _ _ now s Hnot).
  - exists seen. rewrite onclose_unfold.
    by destruct (negb (code =? 1000) && (reconnectAttempts s <? maxReconnectAttempts s)).
Qed.

Lemma run_allocated key history :
  ∃ seen, allocated seen (speakerMap (run JSON_parse (constructor key) history)).
Proof.
  induction history as [|e history [seen IH]] using rev_ind.
  - exists []. apply allocated_empty.
  - unfold run in *. rewrite foldl_app. by eapply step_allocated.
Qed.

(** X9. In every session reached from the constructor, however many
    speakers there are: two different speaker ids never have the same
    label, and a table of [n] entries holds exactly the labels of the
    allocation indices 0 to [n-1], none skipped. *)
Theorem labels_distinct key history :
  (∀ id1 id2 label,
     speakerMap (run JSON_parse (constructor key) history) !! id1 = Some label →
     speakerMap (run JSON_parse (constructor key) history) !! id2 = Some label →
     id1 = id2)
  ∧ (∀ k,
       k < size (speakerMap (run JSON_parse (constructor key) history)) →
       ∃ id, speakerMap (run JSON_parse (constructor key) history) !! id
             = Some (label_of_index k)).
Proof.
  destruct (run_allocated key history) as [seen Hal]. split.
  - intros id1 id2 label. by apply (allocated_inj seen).
  - intros k. by apply (allocated_no_gap seen).
Qed.

End Labels.

(** Speaker 5 keeps "Speaker A" through a message of speaker 1, an
    abnormal closure and a batch call without words. *)
Lemma label_kept_witness :
  Forall (λ e, resets_labels e = false)
    [SocketMessage "payload" 1700; SocketClose 1006;
     CallTranscribeRecording flat_response] ∧
  truthy (speakerMap labelled_session !! Some 5%Z) = Some "Speaker A" ∧
  speakerMap (run (parses_to (final_message hello)) labelled_session
                [SocketMessage "payload" 1700; SocketClose 1006;
                 CallTranscribeRecording flat_response]) !! Some 5%Z
  = Some "Speaker A".
Proof.
  assert (Hevents : Forall (λ e, resets_labels e = false)
            [SocketMessage "payload" 1700; SocketClose 1006;
             CallTranscribeRecording flat_response]).
  { by repeat constructor. }
  split; [exact Hevents|]. split; [reflexivity|].
  exact (label_kept (parses_to (final_message hello)) _ labelled_session
           (Some 5%Z) "Speaker A" Hevents eq_refl).
Defined.

(** After one message of speaker 1 the table has one entry, and it holds
    the label of index 0. *)
Lemma labels_distinct_witness :
  0 < size (speakerMap (run (parses_to (final_message hello)) (constructor "key")
                          [SocketMessage "payload" 1700])) ∧
  ∃ id, speakerMap (run (parses_to (final_message hello)) (constructor "key")
                      [SocketMessage "payload" 1700]) !! id
        = Some "Speaker A".
Proof.
  assert (Hsize : 0 < size (speakerMap (run (parses_to (final_message hello))
                                          (constructor "key")
                                          [SocketMessage "payload" 1700]))).
  { vm_compute. lia. }
  split; [exact Hsize|].
  exact (proj2 (labels_distinct (parses_to (final_message hello)) "key"
                  [SocketMessage "payload" 1700]) 0 Hsize).
Defined.

(** ** More on the batch path *)

Lemma see_idemp {K} `{EqDecision K} (seen : list K) x : see (see seen x) x = see seen x.
Proof.
  unfold see at 1. rewrite decide_True; [done|]. apply see_elem. by right.
Qed.

(** The segments present the speakers in the order of the words. *)
Lemma segments_first_seen ws seen :
  foldl see seen (segments ws).*1 = foldl see seen (speaker_of <$> ws).
Proof.
  revert seen. induction ws as [|w ws IH]; intros seen; [done|].
  rewrite fmap_cons, segments_cons. cbn [foldl]. rewrite <-IH.
  destruct (segments ws) as [|[id group] more]; [done|].
  case_bool_decide as Hid; [|done]. cbn. by rewrite Hid, see_idemp.
Qed.

Lemma first_seen_length (ids : list Z) :
  length (first_seen ids) = size (list_to_set ids : gset Z).
Proof.
  rewrite <-(size_list_to_set (C := gset Z) (first_seen ids) (first_seen_NoDup ids)).
  f_equal. apply set_eq. intros id.
  by rewrite !elem_of_list_to_set, first_seen_elem.
Qed.

(** X10. After a batch call that reaches the segmentation, the table has
    one entry per distinct speaker id of the word list, whatever it held
    before, and the speakers hold the labels of the allocation indices
    below that number. *)
Theorem transcribeRecording_table_size res s :
  word_list res ≠ [] →
  size (speakerMap (transcribeRecording res s).2)
    = size (list_to_set (speaker_of <$> word_list res) : gset Z)
  ∧ (∀ w, w ∈ word_list res →
       ∃ k, k < size (list_to_set (speaker_of <$> word_list res) : gset Z) ∧
            speakerMap (transcribeRecording res s).2 !! Some (speaker_of w)
            = Some (label_of_index k)).
Proof.
  intros Hsome. rewrite transcribeRecording_word_list by done. cbn [snd].
  rewrite lines_from_label_all. cbn [snd].
  destruct (label_all_allocated (Some <$> (segments (word_list res)).*1) []
              (set_speakerMap ∅ s) allocated_empty) as (m & -> & Hm).
  cbn [speakerMap set_speakerMap].
  assert (Hseen : foldl see [] (Some <$> (segments (word_list res)).*1)
                  = Some <$> first_seen (speaker_of <$> word_list res)).
  { etrans; [apply (foldl_see_fmap Some _ [])|]. unfold first_seen.
    by rewrite segments_first_seen. }
  rewrite Hseen in Hm. pose proof (allocated_size _ _ Hm) as Hsize.
  rewrite length_fmap, first_seen_length in Hsize. split; [done|].
  intros w Hw. destruct Hm as [Hnd Hm].
  assert (Hin : Some (speaker_of w) ∈ Some <$> first_seen (speaker_of <$> word_list res)).
  { apply list_elem_of_fmap_2, first_seen_elem. by apply list_elem_of_fmap_2. }
  exists (index_of (Some (speaker_of w))
            (Some <$> first_seen (speaker_of <$> word_list res))).
  split.
  - rewrite <-first_seen_length, <-(length_fmap Some).
    eapply lookup_lt_Some. by apply index_of_lookup.
  - by rewrite Hm, decide_True.
Qed.

(** Three words of two speakers, on a session that had a label for
    speaker 5: two entries. *)
Lemma transcribeRecording_table_size_witness :
  word_list (batch_response [said "hi" 0; said "there" 0; said "bye" 1]) ≠ [] ∧
  size (speakerMap (transcribeRecording
                      (batch_response [said "hi" 0; said "there" 0; said "bye" 1])
                      labelled_session).2) = 2.
Proof.
  split; [discriminate|].
  refine (eq_trans (proj1 (transcribeRecording_table_size
                             (batch_response [said "hi" 0; said "there" 0; said "bye" 1])
                             labelled_session _)) _).
  - discriminate.
  - reflexivity.
Defined.

(** X11. When all the words have the same speaker id, the transcript is
    the single line "Speaker A: " followed by the words joined by single
    spaces, whatever that id and whatever the table held before. *)
Theorem transcribeRecording_one_speaker res s c :
  word_list res ≠ [] →
  Forall (λ w, speaker_of w = c) (word_list res) →
  (transcribeRecording res s).1
    = inr ("Speaker A: " +:+ String.concat " " (word_text <$> word_list res)).
Proof.
  intros Hsome Hone. rewrite transcribeRecording_word_list by done. cbn [fst].
  rewrite <-(app_nil_r (word_list res)).
  rewrite (segments_run_app c (word_list res) []) by done.
  rewrite app_nil_r. reflexivity.
Qed.

(** A recording of speaker 7 alone. *)
Lemma transcribeRecording_one_speaker_witness :
  word_list (batch_response [said "good" 7; said "morning" 7]) ≠ [] ∧
  Forall (λ w, speaker_of w = 7%Z) (word_list (batch_response [said "good" 7; said "morning" 7])) ∧
  (transcribeRecording (batch_response [said "good" 7; said "morning" 7])
     labelled_session).1
    = inr "Speaker A: good morning".
Proof.
  assert (Hone : Forall (λ w, speaker_of w = 7%Z)
                   (word_list (batch_response [said "good" 7; said "morning" 7]))).
  { by repeat constructor. }
  split; [discriminate|]. split; [exact Hone|].
  refine (transcribeRecording_one_speaker
            (batch_response [said "good" 7; said "morning" 7]) labelled_session 7%Z
            _ Hone).
  discriminate.
Defined.

(** X12. [handleMessage] and [transcribeRecording] write nothing but the
    speaker-label table: the credential, the connection handle, the
    status, the attempt counter, the ceiling and the listeners are as
    before, whatever the payload and the response. *)
Theorem only_table_written JSON_parse data now res s :
  (∃ table, (handleMessage JSON_parse data now s).1 = set_speakerMap table s)
  ∧ (∃ table, (transcribeRecording res s).2 = set_speakerMap table s).
Proof. split; [apply handleMessage_frame|apply transcribeRecording_frame]. Qed.

(** ** Labels of a stream of final transcripts *)

Lemma emitted_labels_event alternative transcript_text now s rest :
  emitted_labels (transcript_event alternative transcript_text now s :: rest)
    = (getSpeakerLabel (Some (first_speaker alternative)) s).1 :: emitted_labels rest.
Proof. reflexivity. Qed.

Lemma label_all_cons id ids s :
  (label_all (id :: ids) s).1
    = (getSpeakerLabel id s).1 :: (label_all ids (getSpeakerLabel id s).2).1.
Proof.
  cbn [label_all]. destruct (getSpeakerLabel id s) as [label s1]. cbn [fst snd].
  by destruct (label_all ids s1).
Qed.

Lemma stream_label_all JSON_parse (messages : list (string * Z))
    (heard : list Alternative) s :
  Forall2 (λ message alternative,
             ∃ parsed transcript_text,
               JSON_parse message.1 = Some parsed ∧
               final_transcript parsed alternative transcript_text)
          messages heard →
  emitted_labels
    (trace JSON_parse s ((λ message, SocketMessage message.1 message.2) <$> messages))
    = (label_all (Some <$> (first_speaker <$> heard)) s).1.
Proof.
  intros Hall. revert s.
  induction Hall as [|[data now] alternative messages heard
                       (parsed & transcript_text & Hparse & Hfinal) Hall IH];
    intros s; [done|].
  rewrite !fmap_cons, label_all_cons. cbn [trace step fst snd] in *.
  rewrite (handleMessage_final _ _ now s _ _ _ Hparse Hfinal). cbn [fst snd app].
  by rewrite emitted_labels_event, IH.
Qed.

(** X13. Over a stream of final transcripts received on a session whose
    table is empty, the labels of the emitted events follow the first-seen
    order of the speakers of the first words: the speaker of the [k]-th
    new id is labelled with allocation index [k] in every event. *)
Theorem streaming_labels JSON_parse (messages : list (string * Z))
    (heard : list Alternative) s :
  speakerMap s = ∅ →
  Forall2 (λ message alternative,
             ∃ parsed transcript_text,
               JSON_parse message.1 = Some parsed ∧
               final_transcript parsed alternative transcript_text)
          messages heard →
  emitted_labels
    (trace JSON_parse s ((λ message, SocketMessage message.1 message.2) <$> messages))
    = first_seen_labels (first_speaker <$> heard).
Proof.
  intros Hempty Hall.
  by rewrite (stream_label_all _ _ heard), label_all_first_seen.
Qed.

(** Speaker 1, then a first word without speaker, then speaker 1
    again. *)
Lemma streaming_labels_witness :
  speakerMap (constructor "key") = ∅ ∧
  emitted_labels
    (trace two_payloads (constructor "key")
       [SocketMessage "hello" 1; SocketMessage "unattributed" 2;
        SocketMessage "hello" 3])
    = ["Speaker A"; "Speaker B"; "Speaker A"].
Proof.
  split; [reflexivity|].
  refine (streaming_labels two_payloads
            [("hello", 1%Z); ("unattributed", 2%Z); ("hello", 3%Z)]
            [hello; hello_unattributed; hello] (constructor "key") eq_refl _).
  repeat constructor.
  - exists (final_message hello), "hello". split; [reflexivity|].
    apply final_message_final; [reflexivity|discriminate].
  - exists (final_message hello_unattributed), "hello". split; [reflexivity|].
    apply final_message_final; [reflexivity|discriminate].
  - exists (final_message hello), "hello". split; [reflexivity|].
    apply final_message_final; [reflexivity|discriminate].
Defined.

(** * The side panel *)

(** ** The recording timer *)

Lemma string_app_nil_l (s : string) : "" +:+ s = s.
Proof. reflexivity. Qed.

Lemma padStart_long c s : 2 ≤ String.length s → padStart 2 c s = s.
Proof.
  intros Hlen. unfold padStart.
  by replace (2 - String.length s) with 0 by lia.
Qed.

Lemma pretty_N_go_length x s : String.length s ≤ String.length (pretty_N_go x s).
Proof.
  revert s. induction (N.lt_wf_0 x) as [x _ IH]; intros s.
  assert (x = 0 ∨ 0 < x)%N as [-> |Hpos] by lia; [by rewrite pretty_N_go_0|].
  rewrite pretty_N_go_step by done.
  etrans; [|apply IH; by apply N.div_lt]. cbn. lia.
Qed.

(** A numeral of 10 or more has at least two characters. *)
Lemma pretty_length_two (n : nat) : 10 ≤ n → 2 ≤ String.length (pretty (Z.of_nat n)).
Proof.
  intros Hn. destruct n as [|n]; [lia|].
  change (pretty (Z.of_nat (S n))) with (pretty (N.pos (Pos.of_succ_nat n))).
  unfold pretty, pretty_N. rewrite decide_False by done.
  rewrite 2!pretty_N_go_step by (try apply N.div_str_pos_iff; lia).
  etrans; [|apply pretty_N_go_length]. cbn. lia.
Qed.

(** Below 100, padding the numeral to two characters gives the two
    digits. *)
Lemma padStart_two_digits (n : nat) :
  n < 100 → padStart 2 (digit 0) (pretty (Z.of_nat n)) = two_digits n.
Proof.
  intros Hn.
  assert (Hall : Forall (λ n, padStart 2 (digit 0) (pretty (Z.of_nat n)) = two_digits n)
                        (seq 0 100)).
  { apply (bool_decide_unpack _). by vm_compute. }
  rewrite Forall_forall in Hall. apply Hall, elem_of_seq. lia.
Qed.

(** X14. Once recording has started (a start time that is a positive
    timestamp, not after now), [updateTimer] shows the whole seconds
    elapsed as minutes, a colon and seconds: the seconds always as two
    digits below 60; the minutes as two digits below 100 minutes, so that
    the text is MM:SS, and from 10 minutes on as the plain numeral, which
    grows to three digits at 100 minutes: minutes are never wrapped into
    hours. *)
Theorem updateTimer_display started now shown :
  (0 < started)%Z → (started ≤ now)%Z →
  let elapsed := Z.to_nat ((now - started) `div` 1000) in
  updateTimer (Some started) now shown
    = padStart 2 (digit 0) (pretty (Z.of_nat (elapsed `div` 60)))
      +:+ ":" +:+ two_digits (elapsed `mod` 60)
  ∧ elapsed `mod` 60 < 60
  ∧ (elapsed < 100 * 60 →
       updateTimer (Some started) now shown
         = two_digits (elapsed `div` 60) +:+ ":" +:+ two_digits (elapsed `mod` 60))
  ∧ (10 * 60 ≤ elapsed →
       updateTimer (Some started) now shown
         = pretty (Z.of_nat (elapsed `div` 60)) +:+ ":" +:+ two_digits (elapsed `mod` 60)).
Proof.
  intros Hstarted Hnow elapsed.
  assert (Hsec : elapsed `mod` 60 < 60) by (apply Nat.mod_upper_bound; lia).
  assert (Hshown : updateTimer (Some started) now shown
            = padStart 2 (digit 0) (pretty (Z.of_nat (elapsed `div` 60)))
              +:+ ":" +:+ two_digits (elapsed `mod` 60)).
  { unfold updateTimer. rewrite bool_decide_false by lia. cbv zeta.
    assert (Hnonneg : (0 ≤ (now - started) `div` 1000)%Z)
      by (apply Z.div_pos; lia).
    assert (Helapsed : ((now - started) `div` 1000)%Z = Z.of_nat elapsed)
      by (unfold elapsed; by rewrite Z2Nat.id).
    rewrite Helapsed, Z.rem_mod_nonneg by lia.
    change 60%Z with (Z.of_nat 60).
    rewrite <-(Nat2Z.inj_div elapsed 60), <-(Nat2Z.inj_mod elapsed 60).
    by rewrite (padStart_two_digits (elapsed `mod` 60)) by lia. }
  split_and!; [done..| |].
  - intros Hshort. rewrite Hshown, padStart_two_digits; [done|].
    apply Nat.Div0.div_lt_upper_bound. lia.
  - intros Hlong. rewrite Hshown, padStart_long; [done|].
    apply pretty_length_two. apply Nat.div_le_lower_bound; lia.
Qed.

(** 83 seconds and a half after the start: 01:23. *)
Lemma updateTimer_display_witness :
  (0 < 1700000000000)%Z ∧ (1700000000000 ≤ 1700000083500)%Z ∧
  updateTimer (Some 1700000000000%Z) 1700000083500%Z "00:00" = "01:23".
Proof.
  split; [reflexivity|]. split; [discriminate|].
  refine (eq_trans (proj1 (updateTimer_display 1700000000000 1700000083500 "00:00" _ _)) _).
  - reflexivity.
  - discriminate.
  - reflexivity.
Defined.

(** ** The recorded blob *)

Lemma ondataavailable_foldl datas chunks :
  foldl ondataavailable chunks datas
    = chunks ++ filter (λ data, 0 < Blob.size data) datas.
Proof.
  revert chunks. induction datas as [|data datas IH]; intros chunks; cbn [foldl].
  - by rewrite app_nil_r.
  - rewrite IH, filter_cons. unfold ondataavailable.
    destruct (Nat.ltb_spec 0 (Blob.size data)).
    + rewrite decide_True by done. by rewrite <-app_assoc.
    + by rewrite decide_False by lia.
Qed.

Lemma concat_nonempty (datas : list Blob.t) :
  concat (Blob.bytes <$> filter (λ data, 0 < Blob.size data) datas)
    = concat (Blob.bytes <$> datas).
Proof.
  induction datas as [|data datas IH]; [done|].
  rewrite filter_cons. destruct (decide (0 < Blob.size data)) as [Hpos|Hzero].
  - csimpl. by rewrite IH.
  - rewrite IH. csimpl.
    assert (Hempty : Blob.bytes data = []).
    { apply length_zero_iff_nil. unfold Blob.size in Hzero. lia. }
    by rewrite Hempty.
Qed.

(** X15. Whatever data the recorder delivers after [audioChunks] was
    emptied, the chunks kept are the non-empty ones in their order of
    arrival, and the blob built when recording stops has type audio/webm
    and holds all the bytes delivered, in order: dropping the empty chunks
    loses nothing. Sent to [transcribeRecording], it goes out with the
    content type audio/webm. *)
Theorem recorded_blob (datas : list Blob.t) :
  foldl ondataavailable [] datas = filter (λ data, 0 < Blob.size data) datas
  ∧ Blob.bytes (onstop_blob (foldl ondataavailable [] datas))
      = concat (Blob.bytes <$> datas)
  ∧ Blob.type (onstop_blob (foldl ondataavailable [] datas)) = "audio/webm"
  ∧ content_type (onstop_blob (foldl ondataavailable [] datas)) = "audio/webm".
Proof.
  rewrite ondataavailable_foldl. cbn [app]. split_and!; [done| |done..].
  cbn. apply concat_nonempty.
Qed.

(** * The bundled build *)

(** X16. The bundled revision of [transcribeRecording] returns what the
    current one returns on every response that does not reach the
    segmentation (a failure, no alternative, no words), and the current
    one leaves the session untouched there; on a response with words the
    bundle returns the flat transcript of the first alternative,
    without labels. *)
Theorem bundle_agrees res s :
  (word_list res = [] →
     transcribeRecording res s = (Bundle.transcribeRecording res, s))
  ∧ (∀ data alternative,
       ok res = true → json res = Some data →
       first_alternative data = Some alternative →
       Bundle.transcribeRecording res = inr (default "" (transcript alternative))).
Proof.
  split.
  - intros Hnone. unfold word_list in Hnone.
    unfold Bundle.transcribeRecording.
    destruct (ok res) eqn:Hok; [|by unfold transcribeRecording; rewrite Hok].
    destruct (json res) as [data|] eqn:Hjson;
      [|by unfold transcribeRecording; rewrite Hok, Hjson].
    cbn in Hnone |- *.
    destruct (first_alternative data) as [alternative|] eqn:Halt.
    + rewrite (transcribeRecording_no_words _ _ _ _ Hok Hjson Halt Hnone).
      unfold first_alternative in Halt.
      by destruct (((results data ≫= channels) ≫= head) ≫= alternatives)
        as [[|a rest]|]; simplify_eq/=.
    + rewrite (transcribeRecording_no_alternative _ _ _ Hok Hjson Halt).
      unfold first_alternative in Halt.
      by destruct (((results data ≫= channels) ≫= head) ≫= alternatives)
        as [[|a rest]|]; simplify_eq/=.
  - intros data alternative Hok Hjson Halt. unfold Bundle.transcribeRecording.
    rewrite Hok, Hjson. cbn [negb]. unfold first_alternative in Halt.
    by destruct (((results data ≫= channels) ≫= head) ≫= alternatives)
      as [[|a rest]|]; simplify_eq/=.
Qed.

(** The response with the flat transcript "hello world" and no words. *)
Lemma bundle_agrees_witness :
  word_list flat_response = [] ∧
  transcribeRecording flat_response (constructor "key")
    = (Bundle.transcribeRecording flat_response, constructor "key").
Proof.
  split; [reflexivity|].
  exact (proj1 (bundle_agrees flat_response (constructor "key")) eq_refl).
Defined.

Lemma onstop_error_nonempty message : "Error: " +:+ message ≠ "".
Proof. discriminate. Qed.

(** X17. When the bundled side panel has stopped and the call has
    settled, the transcript element is never empty: it shows the
    transcript when there is one, "(No speech detected)" when the call
    returned the empty string, and for a response that is not [ok] the
    text "Error: Deepgram: ", the status, a space and the body, with the
    status text "Transcription failed". *)
Theorem onstop_shown_text rejection res :
  (Bundle.onstop_shown rejection (Bundle.transcribeRecording res)).1 ≠ ""
  ∧ (∀ transcript_text,
       Bundle.transcribeRecording res = inr transcript_text →
       Bundle.onstop_shown rejection (Bundle.transcribeRecording res)
         = (if String.eqb transcript_text "" then "(No speech detected)"
            else transcript_text,
            "Recording stopped"))
  ∧ (ok res = false →
       Bundle.onstop_shown rejection (Bundle.transcribeRecording res)
         = ("Error: Deepgram: " +:+ pretty (status res) +:+ " " +:+ text res,
            "Transcription failed")).
Proof.
  split_and!.
  - destruct (Bundle.transcribeRecording res) as [[message|]|transcript_text];
      cbn [Bundle.onstop_shown fst]; [apply onstop_error_nonempty..|].
    unfold truthy, nonempty.
    destruct (String.eqb_spec transcript_text "") as [-> |Hne]; [done|].
    by cbn.
  - intros transcript_text ->. cbn [Bundle.onstop_shown]. unfold truthy, nonempty.
    by destruct (String.eqb transcript_text "").
  - intros Hok. unfold Bundle.transcribeRecording. by rewrite Hok.
Qed.

(** A 401 with body "Unauthorized". *)
Lemma onstop_shown_text_witness :
  ok {| ok := false; status := 401; text := "Unauthorized"; json := None |} = false ∧
  Bundle.onstop_shown "bad JSON"
    (Bundle.transcribeRecording
       {| ok := false; status := 401; text := "Unauthorized"; json := None |})
  = ("Error: Deepgram: 401 Unauthorized", "Transcription failed").
Proof.
  split; [reflexivity|].
  exact (proj2 (proj2 (onstop_shown_text "bad JSON"
                         {| ok := false; status := 401; text := "Unauthorized";
                            json := None |})) eq_refl).
Defined.
